(** * Contact-point enrichment utilities of Grafana unified alerting

    A shallow embedding of
    [public/app/features/alerting/unified/components/contact-points/utils.ts]
    together with the properties its specification states about it.

    Conventions of the embedding.
    - A JavaScript string is the list of its UTF-16 code units ([list N]);
      [js "..."] injects an ASCII literal.
    - An optional property ([x?: T], or a value that may be [undefined]) is an
      [option]; truthiness of an optional string is "present and non-empty".
    - An object used as a dictionary ([Record<string, any>], the result of
      lodash's [groupBy]) is a finite map over its own keys ([gmap]); a
      bracket lookup with a computed key also reaches the members of
      [Object.prototype], which is modelled where the module does one.
    - Code that lives in other modules of the application (the inherited-tree
      resolver, the receiver-list normaliser, the OnCall metadata resolver),
      the ambient feature toggle and the host's locale collation are
      parameters of the development. *)

From Stdlib Require Import ZArith NArith List Ascii String DecimalString Sorted.
From Stdlib Require DecimalNat DecimalFacts.
From stdpp Require Import base decidable option list gmap fin_maps sorting.

Set Warnings "-register-all".
Local Open Scope N_scope.

(** ** JavaScript strings *)

Abbreviation jsstring := (list N).

Definition js (s : string) : jsstring :=
  map N_of_ascii (list_ascii_of_string s).

(** Truthiness of a string value: only the empty string is falsy. *)
Definition truthy (s : jsstring) : bool :=
  match s with [] => false | _ :: _ => true end.

(** [a || b] on optional strings. *)
Definition js_or (a b : option jsstring) : option jsstring :=
  match a with
  | Some s => if truthy s then Some s else b
  | None => b
  end.

(** The character class [\s] of ECMAScript regular expressions, which is also
    the set removed by [String.prototype.trim] and by lodash's [trim]:
    WhiteSpace and LineTerminator code points. *)
Definition isWhitespace (c : N) : bool :=
  ((9 <=? c) && (c <=? 13))          (* TAB, LF, VT, FF, CR *)
  || (c =? 32)                       (* SPACE *)
  || (c =? 160)                      (* NO-BREAK SPACE *)
  || (c =? 5760)                     (* U+1680 *)
  || ((8192 <=? c) && (c <=? 8202))  (* U+2000 .. U+200A *)
  || (c =? 8232) || (c =? 8233)      (* U+2028, U+2029 *)
  || (c =? 8239)                     (* U+202F *)
  || (c =? 8287)                     (* U+205F *)
  || (c =? 12288)                    (* U+3000 *)
  || (c =? 65279).                   (* U+FEFF *)

Fixpoint trimStart (s : jsstring) : jsstring :=
  match s with
  | [] => []
  | c :: s' => if isWhitespace c then trimStart s' else s
  end.

Definition trimEnd (s : jsstring) : jsstring :=
  rev (trimStart (rev s)).

(** [String.prototype.trim], and lodash's [trim] when it is handed to [map]
    (the index argument makes it take the whitespace branch). *)
Definition trim (s : jsstring) : jsstring :=
  trimStart (trimEnd s).

Definition COMMA : N := 44.
Definition SEMICOLON : N := 59.
Definition LINE_FEED : N := 10.
Definition HASH : N := 35.

(** [s.split(/,|;|\n+/g)].  Scanning left to right, a comma or a semicolon
    ends the current piece, and so does a maximal run of line feeds (the
    greedy [\n+]).  [afterLF] records that the previous code unit belonged to
    a run of line feeds which is still being consumed; [piece] is the piece
    under construction.  A string without separators yields itself, the empty
    string yields one empty piece. *)
Fixpoint splitLoop (afterLF : bool) (piece : jsstring) (s : jsstring)
  : list jsstring :=
  match s with
  | [] => [piece]
  | c :: s' =>
      if c =? LINE_FEED then
        if afterLF then splitLoop true piece s'
        else piece :: splitLoop true [] s'
      else if (c =? COMMA) || (c =? SEMICOLON) then
        piece :: splitLoop false [] s'
      else splitLoop false (piece ++ [c]) s'
  end.

Definition splitSeparators (s : jsstring) : list jsstring :=
  splitLoop false [] s.

(** [Array.prototype.join]. *)
Fixpoint join (sep : jsstring) (l : list jsstring) : jsstring :=
  match l with
  | [] => []
  | [x] => x
  | x :: l' => x ++ sep ++ join sep l'
  end.

(** lodash [difference]: the elements of [array], in order, whose value does
    not occur in [values] (lodash [take] is the list prefix [take]). *)
Definition difference (array values : list jsstring) : list jsstring :=
  filter (λ x, x ∉ values) array.

(** Decimal rendering of an array length inside a template literal. *)
Definition numberToString (n : nat) : jsstring :=
  js (NilZero.string_of_uint (Nat.to_uint n)).

(** [s.replace(/^#/, '')]. *)
Definition stripLeadingHash (s : jsstring) : jsstring :=
  match s with
  | c :: s' => if c =? HASH then s' else s
  | [] => []
  end.

(** ** Email address summarisation *)

Definition MAX_ADDRESSES_SHOWN : nat := 3.

(** [addresses.trim().split(SUPPORTED_SEPARATORS).map(trim)] *)
Definition parseAddresses (addresses : jsstring) : list jsstring :=
  map trim (splitSeparators (trim addresses)).

Definition summarizeEmailAddresses (addresses : jsstring) : jsstring :=
  let emails := parseAddresses addresses in
  let summary := take MAX_ADDRESSES_SHOWN emails in
  let rest := difference emails summary in
  let summary :=
    if negb (Nat.eqb (length rest) 0)
    then summary ++ [js "+" ++ numberToString (length rest) ++ js " more"]
    else summary in
  join (js ", ") summary.

(** ** Data model *)

(** An untyped JSON-like payload, for properties this module copies but never
    inspects. *)
Inductive JsValue :=
| JNull
| JBool (b : bool)
| JNumber (z : Z)
| JString (s : jsstring)
| JArray (elements : list JsValue)
| JObject (properties : list (jsstring * JsValue)).

(** Modelled from the spec: the [MatcherOperator] enumeration of
    [app/plugins/datasource/alertmanager/types], of which the spec names the
    "equals" operator. *)
Inductive MatcherOperator := equal | notEqual | regex | notRegex.

#[global] Instance MatcherOperator_eq_dec : EqDecision MatcherOperator.
Proof. solve_decision. Defined.

(** A matcher is the triple [[label, operator, value]]. *)
Definition ObjectMatcher : Type := jsstring * MatcherOperator * jsstring.

(** Modelled from the spec: a policy tree node with an optional receiver, an
    optional matcher list and an ordered sequence of child nodes. *)
Inductive Route := mkRoute {
  route_receiver : option jsstring;
  object_matchers : option (list ObjectMatcher);
  routes : option (list Route);
}.

(** The object literal [{}] used when no route is configured. *)
Definition emptyRoute : Route := mkRoute None None None.

Inductive RouteType := auto_generated | normal.

Record RouteReference := mkRouteReference {
  receiver : jsstring;
  route_type : RouteType;
}.

(** Modelled from the spec: an integration with a [type] tag and an optional
    settings mapping keyed by string (the settings this module reads are
    strings); [config_other] holds its remaining properties. *)
Record GrafanaManagedReceiverConfig := mkReceiverConfig {
  type : jsstring;
  settings : option (gmap jsstring jsstring);
  config_other : gmap jsstring JsValue;
}.

(** Modelled from the spec: a contact point, a named collection of
    integrations; [receiver_other] holds its remaining properties. *)
Record Receiver := mkReceiver {
  name : jsstring;
  id : option jsstring;
  grafana_managed_receiver_configs : option (list GrafanaManagedReceiverConfig);
  receiver_other : gmap jsstring JsValue;
}.

(** Modelled from the spec: the configuration carrying the policy tree root. *)
Record AlertmanagerConfig := mkAlertmanagerConfig {
  route : option Route;
}.

Record AlertManagerCortexConfig := mkAlertManagerCortexConfig {
  alertmanager_config : option AlertmanagerConfig;
}.

(** Modelled from the spec: a catalog entry [{type, name, description}]. *)
Record NotifierDTO := mkNotifierDTO {
  notifier_type : jsstring;
  notifier_name : jsstring;
  notifier_description : option jsstring;
}.

(** Delivery status of one integration; opaque here. *)
Definition NotifierStatus : Type := JsValue.

(** Modelled from the spec: a delivery-status entry of a contact point with
    its per-integration array. *)
Record ReceiversStateDTO := mkReceiversStateDTO {
  state_name : jsstring;
  integrations : list NotifierStatus;
}.

(** An entry of the OnCall plugin's integration list; opaque here. *)
Definition OnCallIntegrationDTO : Type := JsValue.

(** Modelled from the spec: plugin metadata, of which this module reads the
    optional [description]. *)
Record ReceiverPluginMetadata := mkReceiverPluginMetadata {
  plugin_description : option jsstring;
  plugin_other : gmap jsstring JsValue;
}.

(** The value stored under [RECEIVER_META_KEY]. *)
Record NotifierMetadata := mkNotifierMetadata {
  meta_name : jsstring;
  meta_description : option jsstring;
}.

(** [ReceiverConfigWithMetadata extends GrafanaManagedReceiverConfig]: the
    three metadata facets sit under symbol keys, so they are separate from
    every string-keyed property of the receiver config they extend. *)
Record ReceiverConfigWithMetadata := mkReceiverConfigWithMetadata {
  config : GrafanaManagedReceiverConfig;                  (* ...receiver *)
  RECEIVER_STATUS_KEY : option NotifierStatus;
  RECEIVER_META_KEY : NotifierMetadata;
  RECEIVER_PLUGIN_META_KEY : option ReceiverPluginMetadata;
}.

(** The names of the members of an unmodified [Object.prototype], which every
    plain object inherits: those of the language proper and the legacy
    accessors of its annex for web browsers.  Each is a function, or for
    [__proto__] an object: none is [null] or [undefined]. *)
Definition OBJECT_PROTOTYPE_KEYS : list jsstring :=
  map js
    [ "constructor"; "hasOwnProperty"; "isPrototypeOf"; "propertyIsEnumerable";
      "toLocaleString"; "toString"; "valueOf"; "__proto__";
      "__defineGetter__"; "__defineSetter__"; "__lookupGetter__";
      "__lookupSetter__" ]%string.

(** What ends up in [policies]: a list of references, or the member of
    [Object.prototype] of the given name, reached through the prototype chain
    of the grouping object. *)
Inductive Policies :=
| PolicyList (references : list RouteReference)
| InheritedMember (key : jsstring).

(** [ContactPointWithMetadata extends GrafanaManagedContactPoint]: the
    properties of the contact point with [id], [policies] and
    [grafana_managed_receiver_configs] replaced. *)
Record ContactPointWithMetadata := mkContactPointWithMetadata {
  cp_name : jsstring;
  cp_other : gmap jsstring JsValue;
  cp_id : jsstring;
  policies : option Policies;
  cp_receiver_configs : list ReceiverConfigWithMetadata;
}.

Record EnhanceContactPointsArgs := mkEnhanceContactPointsArgs {
  status : option (list ReceiversStateDTO);
  notifiers : option (list NotifierDTO);
  onCallIntegrations : option (list OnCallIntegrationDTO);
  contactPoints : list Receiver;
  alertmanagerConfiguration : option AlertManagerCortexConfig;
}.

(** ** Library functions used by the module *)

(** lodash [groupBy]: walks the collection in order; an element whose key is
    already present is pushed onto that group, otherwise it starts a group. *)
Definition groupBy {A} (iteratee : A → jsstring) (collection : list A)
  : gmap jsstring (list A) :=
  foldl (λ result value,
           let key := iteratee value in
           match result !! key with
           | Some group => <[key := group ++ [value]]> result
           | None => <[key := [value]]> result
           end) ∅ collection.

(** [object[key] ?? []] on the plain object that [groupBy] returns: an own
    property wins; failing that the key is looked up on [Object.prototype],
    whose members are not nullish, so that [?? []] leaves them in place; only
    a key found nowhere gives the empty list. *)
Definition lookupOrEmpty (object : gmap jsstring (list RouteReference))
    (key : jsstring) : Policies :=
  match object !! key with
  | Some group => PolicyList group
  | None =>
      if bool_decide (key ∈ OBJECT_PROTOTYPE_KEYS) then InheritedMember key
      else PolicyList []
  end.

(** [Array.prototype.sort(comparefn)].  ECMAScript leaves the algorithm to the
    implementation and fixes the outcome for a consistent comparator: the
    stable sorted permutation, which is unique ([stable_sorted_unique]
    below).  It is produced here by insertion, an element going in front of
    the first later element it does not exceed. *)
Fixpoint sortInsert {A} (comparefn : A → A → Z) (x : A) (l : list A) : list A :=
  match l with
  | [] => [x]
  | y :: l' =>
      if (comparefn x y <=? 0)%Z then x :: y :: l'
      else y :: sortInsert comparefn x l'
  end.

Definition sort {A} (comparefn : A → A → Z) (l : list A) : list A :=
  foldr (sortInsert comparefn) [] l.

(** ** The module *)

Definition AUTOGENERATED_RECEIVER_POLICY_MATCHER_KEY : jsstring :=
  js "__grafana_receiver__".

Section ContactPoints.

(** [config.featureToggles.alertingSimplifiedRouting] *)
Variable alertingSimplifiedRouting : option bool.
(** [ReceiverTypes.OnCall], the type tag of the OnCall plugin integration *)
Variable OnCall : jsstring.
(** [computeInheritedTree] of [utils/notification-policies] *)
Variable computeInheritedTree : Route → Route.
(** [extractReceivers] of [utils/receivers] *)
Variable extractReceivers : Receiver → list GrafanaManagedReceiverConfig.
(** [getOnCallMetadata] of [useReceiversMetadata] *)
Variable getOnCallMetadata :
  option (list OnCallIntegrationDTO) → GrafanaManagedReceiverConfig → bool →
  ReceiverPluginMetadata.
(** lodash [upperFirst] *)
Variable upperFirst : jsstring → jsstring.
(** [String.prototype.localeCompare] in the host's locale *)
Variable localeCompare : jsstring → jsstring → Z.

Definition getReceiverDescription (receiver : ReceiverConfigWithMetadata)
  : option jsstring :=
  match settings (config receiver) with
  | None => None
  | Some settings =>
      let ty := type (config receiver) in
      if decide (ty = js "email") then
        let addresses :=
          js_or (settings !! js "addresses") (settings !! js "to") in
        match addresses with
        | Some addresses =>
            if truthy addresses then Some (summarizeEmailAddresses addresses)
            else None
        | None => None
        end
      else if decide (ty = js "slack") then
        let recipient :=
          js_or (settings !! js "recipient") (settings !! js "channel") in
        match recipient with
        | Some recipient =>
            if negb (truthy recipient) then None
            else
              let channelName := stripLeadingHash recipient in
              Some (js "#" ++ channelName)
        | None => None
        end
      else if decide (ty = js "kafka") then settings !! js "kafkaTopic"
      else if decide (ty = js "webhook") then settings !! js "url"
      else if decide (ty = OnCall) then
        RECEIVER_PLUGIN_META_KEY receiver ≫= plugin_description
      else meta_description (RECEIVER_META_KEY receiver)
  end.

Definition isAutoGeneratedPolicy (route : Route) : bool :=
  let simplifiedRoutingToggleEnabled := default false alertingSimplifiedRouting in
  if negb simplifiedRoutingToggleEnabled then false
  else
    match object_matchers route with
    | None => false
    | Some object_matchers =>
        existsb (λ objectMatcher : ObjectMatcher,
                   bool_decide (objectMatcher.1.1
                                = AUTOGENERATED_RECEIVER_POLICY_MATCHER_KEY)
                   && bool_decide (objectMatcher.1.2 = equal))
                object_matchers
    end.

Fixpoint getUsedContactPoints (route : Route) : list RouteReference :=
  let childrenContactPoints :=
    match routes route with
    | Some routes => flat_map getUsedContactPoints routes
    | None => []
    end in
  match route_receiver route with
  | Some receiver =>
      if truthy receiver then
        {| receiver := receiver;
           route_type := if isAutoGeneratedPolicy route
                         then auto_generated else normal |}
        :: childrenContactPoints
      else childrenContactPoints
  | None => childrenContactPoints
  end.

Definition getNotifierMetadata (notifiers : list NotifierDTO)
    (receiver : GrafanaManagedReceiverConfig) : NotifierMetadata :=
  let match_ :=
    find (λ notifier, bool_decide (notifier_type notifier = type receiver))
         notifiers in
  {| meta_name := default (upperFirst (type receiver)) (notifier_name <$> match_);
     meta_description := match_ ≫= notifier_description |}.

(** The callback handed to [contactPoints.map], with the variables it
    closes over. *)
Definition enhanceContactPoint
    (status : list ReceiversStateDTO) (notifiers : list NotifierDTO)
    (onCallIntegrations : option (list OnCallIntegrationDTO))
    (alertmanagerConfiguration : option AlertManagerCortexConfig)
    (usedContactPointsByName : gmap jsstring (list RouteReference))
    (contactPoint : Receiver) : ContactPointWithMetadata :=
  let receivers := extractReceivers contactPoint in
  let statusForReceiver :=
    find (λ status, bool_decide (state_name status = name contactPoint))
         status in
  let id :=
    match id contactPoint with
    | Some i => if truthy i then i else name contactPoint
    | None => name contactPoint
    end in
  {| cp_name := name contactPoint;
     cp_other := receiver_other contactPoint;
     cp_id := id;
     policies :=
       match alertmanagerConfiguration with
       | Some _ =>
           Some (lookupOrEmpty usedContactPointsByName (name contactPoint))
       | None => None
       end;
     cp_receiver_configs :=
       imap (λ index receiver,
               let isOnCallReceiver := bool_decide (type receiver = OnCall) in
               {| config := receiver;
                  RECEIVER_STATUS_KEY :=
                    statusForReceiver ≫= (λ s, integrations s !! index);
                  RECEIVER_META_KEY := getNotifierMetadata notifiers receiver;
                  RECEIVER_PLUGIN_META_KEY :=
                    if isOnCallReceiver
                    then Some (getOnCallMetadata onCallIntegrations receiver
                                 (bool_decide (is_Some alertmanagerConfiguration)))
                    else None |})
            receivers |}.

Definition enhanceContactPointsWithMetadata (args : EnhanceContactPointsArgs)
  : list ContactPointWithMetadata :=
  let status := default [] (status args) in
  let notifiers := default [] (notifiers args) in
  let fullyInheritedTree :=
    computeInheritedTree
      (default emptyRoute
         ((alertmanagerConfiguration args ≫= alertmanager_config) ≫= route)) in
  let usedContactPoints := getUsedContactPoints fullyInheritedTree in
  let usedContactPointsByName := groupBy receiver usedContactPoints in
  let enhanced :=
    map (enhanceContactPoint status notifiers (onCallIntegrations args)
           (alertmanagerConfiguration args) usedContactPointsByName)
        (contactPoints args) in
  sort (λ a b, localeCompare (cp_name a) (cp_name b)) enhanced.

End ContactPoints.

(** ** The properties in the specification's words *)

(** All nodes of a policy tree in pre-order: a node, then the nodes of its
    children from left to right. *)
Fixpoint preorder (route : Route) : list Route :=
  route ::
    match routes route with
    | Some routes => flat_map preorder routes
    | None => []
    end.

(** A node bears a receiver when the field is present and non-empty. *)
Definition hasReceiver (route : Route) : bool :=
  match route_receiver route with
  | Some receiver => truthy receiver
  | None => false
  end.

(** The reference a node contributes on its own, if any. *)
Definition ownReference (autoGenerated : Route → bool) (route : Route)
  : option RouteReference :=
  match route_receiver route with
  | Some receiver =>
      if truthy receiver
      then Some {| receiver := receiver;
                   route_type := if autoGenerated route
                                 then auto_generated else normal |}
      else None
  | None => None
  end.

(** The code units that separate addresses. *)
Definition isSeparator (c : N) : Prop :=
  c = COMMA ∨ c = SEMICOLON ∨ c = LINE_FEED.

(** The addresses left over once every value among the shown ones is taken
    out. *)
Definition remainingCount (emails shown : list jsstring) : nat :=
  length (filter (λ email, email ∉ shown) emails).





(** The first of two optional strings that is present and non-empty. *)
Definition firstNonEmpty (a b : option jsstring) : option jsstring :=
  match a with
  | Some (c :: s) => Some (c :: s)
  | _ => match b with
         | Some (c :: s) => Some (c :: s)
         | _ => None
         end
  end.

(** The first of two optional strings that is present. *)
Definition firstPresent (a b : option jsstring) : option jsstring :=
  match a with
  | Some s => Some s
  | None => b
  end.

(** The slack description read literally: the recipient is the primary field
    when present, else the channel field; absent gives no description, a
    recipient gives it with one leading hash stripped and one put back. *)
Definition slackDescriptionAsStated (fields : gmap jsstring jsstring)
  : option jsstring :=
  (λ recipient, js "#" ++ stripLeadingHash recipient)
    <$> firstPresent (fields !! js "recipient") (fields !! js "channel").

(** The value a description is derived from, by type of integration: the
    addresses (or legacy [to]) of an email, the recipient (or channel) of a
    slack integration, the kafka topic, the webhook URL, the description of
    the plugin metadata for the plugin integration, and that of the notifier
    metadata for any other type.  Nothing without settings. *)
Definition descriptionSource (OnCall : jsstring)
    (receiver : ReceiverConfigWithMetadata) : option jsstring :=
  match settings (config receiver) with
  | None => None
  | Some fields =>
      let ty := type (config receiver) in
      if decide (ty = js "email") then
        firstPresent (fields !! js "addresses") (fields !! js "to")
      else if decide (ty = js "slack") then
        firstPresent (fields !! js "recipient") (fields !! js "channel")
      else if decide (ty = js "kafka") then fields !! js "kafkaTopic"
      else if decide (ty = js "webhook") then fields !! js "url"
      else if decide (ty = OnCall) then
        RECEIVER_PLUGIN_META_KEY receiver ≫= plugin_description
      else meta_description (RECEIVER_META_KEY receiver)
  end.

(** A string that does not begin, respectively end, with whitespace. *)
Definition noLeadingWhitespace (s : jsstring) : Prop :=
  match s with
  | c :: _ => isWhitespace c = false
  | [] => True
  end.

Definition noTrailingWhitespace (s : jsstring) : Prop :=
  noLeadingWhitespace (rev s).

(** The receiver a node names, when it is present and non-empty. *)
Definition ownReceiver (route : Route) : option jsstring :=
  match route_receiver route with
  | Some receiver => if truthy receiver then Some receiver else None
  | None => None
  end.

(** A comparator is consistent when swapping its arguments flips the sign of
    the result and "not greater" is transitive. *)
Record ConsistentComparator {A} (comparefn : A → A → Z) : Prop := {
  comparator_flip : ∀ a b, Z.sgn (comparefn b a) = (- Z.sgn (comparefn a b))%Z;
  comparator_trans :
    ∀ a b c, (comparefn a b <= 0)%Z → (comparefn b c <= 0)%Z →
             (comparefn a c <= 0)%Z;
}.

(** ** Concrete inputs *)

Module Demo.

Definition OnCall : jsstring := js "oncall".

(** A stand-in collation: code units compared one by one after folding
    ASCII capitals to small letters. *)
Definition foldCase (c : N) : N :=
  if (65 <=? c) && (c <=? 90) then c + 32 else c.

Fixpoint caseInsensitiveCompare (a b : jsstring) : Z :=
  match a, b with
  | [], [] => 0%Z
  | [], _ :: _ => (-1)%Z
  | _ :: _, [] => 1%Z
  | x :: a', y :: b' =>
      match N.compare (foldCase x) (foldCase y) with
      | Lt => (-1)%Z
      | Gt => 1%Z
      | Eq => caseInsensitiveCompare a' b'
      end
  end.

Definition leaf (receiver : string) : Route :=
  mkRoute (Some (js receiver)) None (Some []).

(** A root with receiver R and two childless children C1, C2. *)
Definition smallTree : Route :=
  mkRoute (Some (js "R")) None (Some [leaf "C1"; leaf "C2"]).

(** A tree in which no node bears a receiver. *)
Definition bareTree : Route :=
  mkRoute None None
    (Some [mkRoute (Some []) None None; mkRoute None None (Some [])]).

(** A tree that references "ops" twice, once from an auto-generated node. *)
Definition policyTree : Route :=
  mkRoute (Some (js "ops")) None
    (Some [ mkRoute (Some (js "dev"))
              (Some [(AUTOGENERATED_RECEIVER_POLICY_MATCHER_KEY, equal, js "dev")])
              (Some [leaf "ops"])
          ; mkRoute None None (Some [leaf "web"]) ]).

Definition contactPoint (name : string) : Receiver :=
  mkReceiver (js name) None None ∅.

Definition extractReceivers (receiver : Receiver)
  : list GrafanaManagedReceiverConfig :=
  default [] (grafana_managed_receiver_configs receiver).

Definition getOnCallMetadata (_ : option (list OnCallIntegrationDTO))
    (_ : GrafanaManagedReceiverConfig) (_ : bool) : ReceiverPluginMetadata :=
  mkReceiverPluginMetadata None ∅.

Definition enhance (toggle : option bool) (args : EnhanceContactPointsArgs)
  : list ContactPointWithMetadata :=
  enhanceContactPointsWithMetadata toggle OnCall (λ route, route)
    extractReceivers getOnCallMetadata (λ s, s) caseInsensitiveCompare args.

Definition withoutConfiguration (names : list string)
  : EnhanceContactPointsArgs :=
  mkEnhanceContactPointsArgs None None None (map contactPoint names) None.

Definition withConfiguration (names : list string) (tree : Route)
  : EnhanceContactPointsArgs :=
  mkEnhanceContactPointsArgs None None None (map contactPoint names)
    (Some (mkAlertManagerCortexConfig
             (Some (mkAlertmanagerConfig (Some tree))))).

Definition slackReceiver (fields : list (string * string))
  : ReceiverConfigWithMetadata :=
  mkReceiverConfigWithMetadata
    (mkReceiverConfig (js "slack")
       (Some (list_to_map (map (λ kv, (js kv.1, js kv.2)) fields))) ∅)
    None (mkNotifierMetadata (js "Slack") (Some (js "Sends to Slack"))) None.

(** An integration of the given type without settings, but with notifier
    and plugin metadata that both carry a description. *)
Definition withoutSettings (type : jsstring) : ReceiverConfigWithMetadata :=
  mkReceiverConfigWithMetadata
    (mkReceiverConfig type None ∅)
    None (mkNotifierMetadata (js "Name") (Some (js "notifier text")))
    (Some (mkReceiverPluginMetadata (Some (js "plugin text")) ∅)).

End Demo.

(** Further concrete inputs. *)
Module Samples.

Definition emailReceiver (fields : list (string * string))
  : ReceiverConfigWithMetadata :=
  mkReceiverConfigWithMetadata
    (mkReceiverConfig (js "email")
       (Some (list_to_map (map (λ kv, (js kv.1, js kv.2)) fields))) ∅)
    None (mkNotifierMetadata (js "Email") None) None.

Definition pagerduty : GrafanaManagedReceiverConfig :=
  mkReceiverConfig (js "pagerduty") (Some ∅) ∅.

Definition onCall : GrafanaManagedReceiverConfig :=
  mkReceiverConfig Demo.OnCall (Some ∅) ∅.

(** A contact point with a pagerduty and an OnCall integration. *)
Definition team : Receiver :=
  mkReceiver (js "team") None (Some [pagerduty; onCall]) ∅.

(** A catalog with two entries of type pagerduty. *)
Definition catalog : list NotifierDTO :=
  [ mkNotifierDTO (js "slack") (js "Slack") (Some (js "Sends to Slack"))
  ; mkNotifierDTO (js "pagerduty") (js "PagerDuty") (Some (js "Pages"))
  ; mkNotifierDTO (js "pagerduty") (js "Shadowed") None ].

(** A status entry for [team] that is shorter than its list of
    integrations. *)
Definition teamStatus : ReceiversStateDTO :=
  mkReceiversStateDTO (js "team") [JString (js "ok")].

Definition getOnCallMetadata (_ : option (list OnCallIntegrationDTO))
    (_ : GrafanaManagedReceiverConfig) (_ : bool) : ReceiverPluginMetadata :=
  mkReceiverPluginMetadata (Some (js "Grafana OnCall")) ∅.

Definition args : EnhanceContactPointsArgs :=
  mkEnhanceContactPointsArgs (Some [teamStatus]) (Some catalog) None [team]
    None.

Definition enhance (args : EnhanceContactPointsArgs)
  : list ContactPointWithMetadata :=
  enhanceContactPointsWithMetadata None Demo.OnCall (λ route, route)
    Demo.extractReceivers getOnCallMetadata (λ s, s)
    Demo.caseInsensitiveCompare args.

(** Two contact points of one name, told apart by their ids, around a third
    one. *)
Definition twoOfOneName : EnhanceContactPointsArgs :=
  mkEnhanceContactPointsArgs None None None
    [ mkReceiver (js "b") (Some (js "second")) None ∅
    ; mkReceiver (js "a") None None ∅
    ; mkReceiver (js "b") (Some (js "first")) None ∅ ]
    None.

End Samples.

(** * Properties *)

(** ** Policy trees *)

(** Induction over a policy tree, with the property available for every
    child. *)
Lemma Route_children_ind (P : Route → Prop) :
  (∀ receiver matchers children,
      Forall P (default [] children) → P (mkRoute receiver matchers children)) →
  ∀ route, P route.
Proof.
  intros step. fix IH 1. intros [receiver matchers children].
  apply step. destruct children as [l|]; simpl; [|constructor].
  induction l as [|child l IHl]; constructor; [apply IH | exact IHl].
Qed.

Lemma omap_flat_map {A B C} (f : B → option C) (g : A → list B) (l : list A) :
  omap f (flat_map g l) = flat_map (λ x, omap f (g x)) l.
Proof.
  induction l as [|x l IH]; simpl; [reflexivity|].
  rewrite omap_app, IH. reflexivity.
Qed.

Lemma omap_cons_app {A B} (f : A → option B) (x : A) (l : list A) :
  omap f (x :: l) = option_list (f x) ++ omap f l.
Proof. simpl. destruct (f x); reflexivity. Qed.

Lemma preorder_unfold route :
  preorder route = route :: flat_map preorder (default [] (routes route)).
Proof. destruct route as [receiver matchers [l|]]; reflexivity. Qed.

Lemma flat_map_Forall_ext {A B} (f g : A → list B) (l : list A) :
  Forall (λ x, f x = g x) l → flat_map f l = flat_map g l.
Proof.
  induction 1 as [|x l Hx _ IH]; simpl; [reflexivity|].
  rewrite Hx, IH. reflexivity.
Qed.

Lemma ownReference_is_Some autoGenerated route :
  is_Some (ownReference autoGenerated route) ↔ hasReceiver route = true.
Proof.
  unfold ownReference, hasReceiver.
  destruct (route_receiver route) as [r|]; [destruct (truthy r)|];
    split; intros H; try done; try (by eexists); by destruct H.
Qed.

Lemma length_omap_ownReference autoGenerated (l : list Route) :
  length (omap (ownReference autoGenerated) l)
  = length (filter (λ n, hasReceiver n = true) l).
Proof.
  induction l as [|n l IH]; [reflexivity|].
  rewrite filter_cons.
  change (omap (ownReference autoGenerated) (n :: l))
    with (match ownReference autoGenerated n with
          | Some ref => ref :: omap (ownReference autoGenerated) l
          | None => omap (ownReference autoGenerated) l
          end).
  pose proof (ownReference_is_Some autoGenerated n) as Hn.
  destruct (ownReference autoGenerated n) as [ref|].
  - rewrite decide_True by (apply Hn; by eexists). simpl. by rewrite IH.
  - rewrite decide_False; [exact IH|].
    intros H. apply Hn in H. by destruct H.
Qed.

Section PolicyTree.

Variable alertingSimplifiedRouting : option bool.

Local Abbreviation isAutoGenerated := (isAutoGeneratedPolicy alertingSimplifiedRouting).
Local Abbreviation collect := (getUsedContactPoints alertingSimplifiedRouting).

Lemma getUsedContactPoints_unfold route :
  collect route =
  option_list (ownReference isAutoGenerated route)
    ++ flat_map collect (default [] (routes route)).
Proof.
  destruct route as [receiver matchers children]. unfold ownReference. simpl.
  destruct children as [l|]; destruct receiver as [r|]; simpl;
    try destruct (truthy r); reflexivity.
Qed.

Lemma getUsedContactPoints_preorder route :
  collect route = omap (ownReference isAutoGenerated) (preorder route).
Proof.
  induction route as [receiver matchers children IH] using Route_children_ind.
  rewrite getUsedContactPoints_unfold, preorder_unfold, omap_cons_app.
  rewrite omap_flat_map. f_equal.
  apply flat_map_Forall_ext, IH.
Qed.

(** C1: [getUsedContactPoints] yields exactly the references of the
    receiver-bearing nodes, in pre-order and without deduplication; so its
    length is the number of such nodes, and a tree without any yields the
    empty list. *)
Theorem getUsedContactPoints_spec (route : Route) :
  collect route = omap (ownReference isAutoGenerated) (preorder route)
  ∧ length (collect route)
    = length (filter (λ node, hasReceiver node = true) (preorder route))
  ∧ (Forall (λ node, hasReceiver node = false) (preorder route) →
     collect route = []).
Proof.
  split; [apply getUsedContactPoints_preorder|].
  split.
  - rewrite getUsedContactPoints_preorder. apply length_omap_ownReference.
  - intros Hnone. rewrite getUsedContactPoints_preorder.
    induction Hnone as [|node l Hnode _ IH]; simpl; [reflexivity|].
    destruct (ownReference isAutoGenerated node) as [ref|] eqn:E; [|exact IH].
    assert (hasReceiver node = true) as H
        by (apply (ownReference_is_Some isAutoGenerated); rewrite E; by eexists).
    congruence.
Qed.

(** C4: a node is auto-generated exactly when the toggle is on, its matcher
    list is present and one matcher has the reserved label with the
    "equals" operator; with the toggle off or unset it never is. *)
Theorem isAutoGeneratedPolicy_spec (route : Route) :
  (isAutoGenerated route = true ↔
     alertingSimplifiedRouting = Some true
     ∧ ∃ matchers, object_matchers route = Some matchers
         ∧ ∃ label operator value,
             (label, operator, value) ∈ matchers
             ∧ label = AUTOGENERATED_RECEIVER_POLICY_MATCHER_KEY
             ∧ operator = equal)
  ∧ (alertingSimplifiedRouting ≠ Some true → isAutoGenerated route = false).
Proof.
  unfold isAutoGeneratedPolicy. split.
  - destruct alertingSimplifiedRouting as [[|]|]; simpl;
      try (split; [discriminate | intros [? _]; discriminate]).
    destruct (object_matchers route) as [matchers|]; simpl.
    + rewrite existsb_exists. split.
      * intros ([[label operator] value] & Hin & Hm). simpl in Hm.
        apply andb_prop in Hm as [Hl Ho].
        apply bool_decide_eq_true in Hl, Ho.
        split; [reflexivity|]. exists matchers. split; [reflexivity|].
        exists label, operator, value.
        split; [by apply list_elem_of_In | done].
      * intros (_ & ms & [= <-] & label & operator & value & Hin & -> & ->).
        exists (AUTOGENERATED_RECEIVER_POLICY_MATCHER_KEY, equal, value).
        split; [by apply list_elem_of_In|].
        apply andb_true_intro; split; by apply bool_decide_eq_true_2.
    + split; [discriminate|]. intros (_ & ms & [=] & _).
  - intros Hoff. destruct alertingSimplifiedRouting as [[|]|]; simpl; congruence.
Qed.

End PolicyTree.

(** ** Email address summarisation *)

Lemma difference_subsumed (array values : list jsstring) :
  (∀ x, x ∈ array → x ∈ values) → difference array values = [].
Proof.
  unfold difference. induction array as [|x array IH]; intros Hsub;
    [reflexivity|].
  rewrite filter_cons, decide_False.
  - apply IH. intros y Hy. apply Hsub. by right.
  - intros Hx. apply Hx, Hsub. by left.
Qed.

Lemma difference_disjoint (array values : list jsstring) :
  (∀ x, x ∈ array → x ∉ values) → difference array values = array.
Proof.
  unfold difference. induction array as [|x array IH]; intros Hdis;
    [reflexivity|].
  rewrite filter_cons, decide_True.
  - f_equal. apply IH. intros y Hy. apply Hdis. by right.
  - apply Hdis. by left.
Qed.

Lemma length_difference_NoDup (n : nat) (l : list jsstring) :
  NoDup l → length (difference l (take n l)) = (length l - n)%nat.
Proof.
  intros Hnd. rewrite <- (take_drop n l) at 1.
  rewrite <- (take_drop n l) in Hnd.
  apply NoDup_app in Hnd as (_ & Hdisjoint & _).
  unfold difference. rewrite filter_app, length_app.
  fold (difference (take n l) (take n l)).
  fold (difference (drop n l) (take n l)).
  rewrite difference_subsumed by done.
  rewrite difference_disjoint.
  - simpl. apply length_drop.
  - intros x Hdrop Htake. by apply (Hdisjoint x).
Qed.

Lemma splitLoop_not_nil afterLF piece s : splitLoop afterLF piece s ≠ [].
Proof.
  revert afterLF piece. induction s as [|c s IH]; intros afterLF piece;
    simpl; [done|].
  destruct (c =? LINE_FEED); [destruct afterLF; [apply IH | done]|].
  destruct ((c =? COMMA) || (c =? SEMICOLON)); [done | apply IH].
Qed.

Lemma splitLoop_pieces afterLF piece s :
  Forall (λ c, ¬ isSeparator c) piece →
  Forall (Forall (λ c, ¬ isSeparator c)) (splitLoop afterLF piece s).
Proof.
  revert afterLF piece. induction s as [|c s IH]; intros afterLF piece Hpiece;
    simpl; [by constructor|].
  destruct (N.eqb_spec c LINE_FEED) as [->|Hlf].
  { destruct afterLF; [by apply IH|]. constructor; [done|]. by apply IH. }
  destruct (N.eqb_spec c COMMA) as [->|Hcomma]; simpl.
  { constructor; [done|]. by apply IH. }
  destruct (N.eqb_spec c SEMICOLON) as [->|Hsemi].
  { constructor; [done|]. by apply IH. }
  apply IH, Forall_app. split; [done|].
  constructor; [|constructor]. by intros [?|[?|?]].
Qed.

Lemma trimStart_suffix s : trimStart s `suffix_of` s.
Proof.
  induction s as [|c s IH]; simpl; [done|].
  destruct (isWhitespace c); [by apply suffix_cons_r | done].
Qed.

Lemma trim_Forall (P : N → Prop) s : Forall P s → Forall P (trim s).
Proof.
  intros Hs. unfold trim, trimEnd.
  destruct (trimStart_suffix (rev (trimStart (rev s)))) as [k1 E1].
  destruct (trimStart_suffix (rev s)) as [k2 E2].
  assert (Forall P (trimStart (rev s))) as H2.
  { apply Forall_rev in Hs. rewrite E2 in Hs.
    by apply Forall_app in Hs as [_ ?]. }
  apply Forall_rev in H2. rewrite E1 in H2.
  by apply Forall_app in H2 as [_ ?].
Qed.

(** Every parsed address is free of separators, and there is at least one. *)
Lemma parseAddresses_pieces addresses :
  parseAddresses addresses ≠ []
  ∧ Forall (Forall (λ c, ¬ isSeparator c)) (parseAddresses addresses).
Proof.
  unfold parseAddresses, splitSeparators. split.
  - intros H. apply map_eq_nil in H. by apply splitLoop_not_nil in H.
  - apply Forall_map.
    eapply Forall_impl; [apply splitLoop_pieces; constructor|].
    intros piece. apply trim_Forall.
Qed.










(** With pairwise distinct addresses the count is that of the addresses past
    the third. *)
Lemma remainingCount_NoDup (emails : list jsstring) :
  NoDup emails → remainingCount emails (take 3 emails) = (length emails - 3)%nat.
Proof. apply length_difference_NoDup. Qed.

Example summarize_four :
  summarizeEmailAddresses
    (js "foo+1@bar.com, foo+2@bar.com, foo+3@bar.com, foo+4@bar.com")
  = js "foo+1@bar.com, foo+2@bar.com, foo+3@bar.com, +1 more".
Proof. vm_compute. reflexivity. Qed.

Example summarize_one : summarizeEmailAddresses (js "a@x.com") = js "a@x.com".
Proof. vm_compute. reflexivity. Qed.

(** A value among the first three is not counted again later on. *)
Example summarize_repeated :
  summarizeEmailAddresses (js "a@x.com;a@x.com;b@x.com;a@x.com;c@x.com")
  = js "a@x.com, a@x.com, b@x.com, +1 more".
Proof. vm_compute. reflexivity. Qed.

(** ** Receiver descriptions *)

Lemma js_or_firstNonEmpty a b :
  match js_or a b with
  | Some s => if truthy s then Some s else None
  | None => None
  end = firstNonEmpty a b.
Proof.
  destruct a as [[|c s]|], b as [[|d t]|]; reflexivity.
Qed.

Lemma js_or_absent a b : firstPresent a b = None → js_or a b = None.
Proof. destruct a as [s|]; [discriminate | done]. Qed.

Section Descriptions.

Variable OnCall : jsstring.

Local Abbreviation describe := (getReceiverDescription OnCall).

Lemma slack_description_eq receiver fields :
  type (config receiver) = js "slack" →
  settings (config receiver) = Some fields →
  describe receiver
  = (λ recipient, js "#" ++ stripLeadingHash recipient)
      <$> firstNonEmpty (fields !! js "recipient") (fields !! js "channel").
Proof.
  intros Hty Hset. unfold getReceiverDescription. rewrite Hset, Hty.
  rewrite decide_False by (by vm_compute).
  rewrite decide_True by reflexivity.
  rewrite <- js_or_firstNonEmpty.
  destruct (js_or _ _) as [[|c s]|]; reflexivity.
Qed.

(** C7 (amended): a slack integration takes its recipient from the primary
    field or, when that is absent or empty, from the channel field; with
    neither present and non-empty there is no description; otherwise one
    leading hash is stripped and a single one put in front, so that
    "#general" and "general" both give "#general". *)
Theorem slack_description (receiver : ReceiverConfigWithMetadata)
    (fields : gmap jsstring jsstring) :
  type (config receiver) = js "slack" →
  settings (config receiver) = Some fields →
  describe receiver
  = (λ recipient, js "#" ++ stripLeadingHash recipient)
      <$> firstNonEmpty (fields !! js "recipient") (fields !! js "channel")
  ∧ (fields !! js "recipient" = Some (js "#general") →
     describe receiver = Some (js "#general"))
  ∧ (fields !! js "recipient" = Some (js "general") →
     describe receiver = Some (js "#general")).
Proof.
  intros Hty Hset. rewrite (slack_description_eq _ _ Hty Hset).
  split; [reflexivity|]. split; intros ->; reflexivity.
Qed.

(** C8: without settings, or without the field the description of the
    integration's type is derived from, the result is the absent value and
    not an empty string. *)
Theorem no_description_is_absent (receiver : ReceiverConfigWithMetadata) :
  descriptionSource OnCall receiver = None →
  describe receiver = None ∧ describe receiver ≠ Some [].
Proof.
  intros Hsrc.
  assert (describe receiver = None) as ->; [|done].
  unfold descriptionSource in Hsrc. unfold getReceiverDescription.
  destruct (settings (config receiver)) as [fields|]; [|reflexivity].
  cbv zeta in *.
  repeat case_decide; try exact Hsrc;
    by rewrite (js_or_absent _ _ Hsrc).
Qed.

(** C9: without settings there is no description, whatever the type of the
    integration and whatever status, notifier metadata and plugin metadata
    are attached. *)
Theorem no_settings_no_description
    (receiverConfig : GrafanaManagedReceiverConfig)
    (receiverStatus : option NotifierStatus) (meta : NotifierMetadata)
    (pluginMeta : option ReceiverPluginMetadata) :
  settings receiverConfig = None →
  describe (mkReceiverConfigWithMetadata receiverConfig receiverStatus meta
              pluginMeta) = None.
Proof. intros Hnone. unfold getReceiverDescription. simpl. by rewrite Hnone. Qed.

End Descriptions.

(** ** Sorting and grouping *)

Section Sort.

Context {A : Type} (comparefn : A → A → Z).

Local Abbreviation notGreater := (λ a b, (comparefn a b <= 0)%Z).

Lemma sortInsert_Permutation x l : sortInsert comparefn x l ≡ₚ x :: l.
Proof.
  induction l as [|y l IH]; simpl; [done|].
  destruct (comparefn x y <=? 0)%Z; [done|].
  rewrite IH. apply Permutation_swap.
Qed.

Lemma sort_Permutation l : sort comparefn l ≡ₚ l.
Proof.
  induction l as [|x l IH]; simpl; [done|].
  rewrite sortInsert_Permutation. by constructor.
Qed.

Lemma length_sort l : length (sort comparefn l) = length l.
Proof. apply Permutation_length, sort_Permutation. Qed.

(** Elements that never exceed one another keep their relative order. *)
Lemma sortInsert_filter (P : A → Prop) `{∀ x, Decision (P x)} x l :
  (∀ a b, P a → P b → (comparefn a b <= 0)%Z) →
  filter P (sortInsert comparefn x l) = filter P (x :: l).
Proof.
  intros Hclass. induction l as [|y l IH]; simpl; [done|].
  destruct (Z.leb_spec (comparefn x y) 0) as [Hle|Hgt]; [done|].
  rewrite filter_cons, IH, !filter_cons.
  destruct (decide (P y)) as [Hy|Hy]; [|done].
  destruct (decide (P x)) as [Hx|Hx]; [|done].
  specialize (Hclass x y Hx Hy). lia.
Qed.

Lemma sort_filter (P : A → Prop) `{∀ x, Decision (P x)} l :
  (∀ a b, P a → P b → (comparefn a b <= 0)%Z) →
  filter P (sort comparefn l) = filter P l.
Proof.
  intros Hclass. induction l as [|x l IH]; simpl; [done|].
  rewrite sortInsert_filter by done.
  by rewrite !filter_cons, IH.
Qed.

Hypothesis consistent : ConsistentComparator comparefn.

Lemma comparator_total a b :
  (comparefn a b <= 0)%Z ∨ (comparefn b a <= 0)%Z.
Proof.
  pose proof (comparator_flip _ consistent a b).
  destruct (Z.leb_spec (comparefn a b) 0); [by left | right]. lia.
Qed.

Lemma comparator_refl a : comparefn a a = 0%Z.
Proof. pose proof (comparator_flip _ consistent a a). lia. Qed.

Lemma sortInsert_sorted x l :
  StronglySorted notGreater l →
  StronglySorted notGreater (sortInsert comparefn x l).
Proof.
  induction 1 as [|y l Hsorted IH Hy]; simpl.
  { repeat constructor. }
  destruct (Z.leb_spec (comparefn x y) 0) as [Hle|Hgt].
  - constructor; [by constructor|].
    constructor; [done|].
    eapply Forall_impl; [exact Hy|]. intros z Hz. simpl in *.
    by eapply (comparator_trans _ consistent).
  - constructor; [exact IH|].
    rewrite sortInsert_Permutation. constructor; [|done].
    destruct (comparator_total y x); [done | lia].
Qed.

Lemma sort_sorted l : StronglySorted notGreater (sort comparefn l).
Proof.
  induction l as [|x l IH]; simpl; [constructor | by apply sortInsert_sorted].
Qed.

(** Stability: the elements that compare equal to a given one appear in
    their original order. *)
Lemma sort_stable k l :
  filter (λ x, comparefn x k = 0%Z) (sort comparefn l)
  = filter (λ x, comparefn x k = 0%Z) l.
Proof.
  apply sort_filter. intros a b Ha Hb.
  pose proof (comparator_flip _ consistent b k) as Hflip.
  apply (comparator_trans _ consistent a k b); lia.
Qed.

(** The stable sorted arrangement is unique: two sorted lists that agree on
the order within every class of equal elements are the same list.  So any
implementation of [Array.prototype.sort] that meets the language's
guarantees returns what [sort] returns. *)
Lemma stable_sorted_unique l1 l2 :
  StronglySorted notGreater l1 → StronglySorted notGreater l2 →
  (∀ k, filter (λ x, comparefn x k = 0%Z) l1
        = filter (λ x, comparefn x k = 0%Z) l2) →
  l1 = l2.
Proof.
  intros Hs1. revert l2.
  induction Hs1 as [|x l1 Hs1 IH Hx]; intros l2 Hs2 Hclass.
  - destruct l2 as [|y l2]; [reflexivity|].
    specialize (Hclass y). rewrite filter_cons, decide_True in Hclass
      by apply comparator_refl. discriminate.
  - destruct Hs2 as [|y l2 Hs2 Hy].
    { specialize (Hclass x). rewrite filter_cons, decide_True in Hclass
        by apply comparator_refl. discriminate. }
    assert (comparefn y x <= 0)%Z as Hyx.
    { assert (x ∈ y :: l2) as Hin.
      { assert (x ∈ filter (λ z, comparefn z x = 0%Z) (y :: l2)) as Hf.
        { rewrite <- (Hclass x), filter_cons, decide_True
            by apply comparator_refl. by left. }
        by apply list_elem_of_filter in Hf as [_ ?]. }
      apply elem_of_cons in Hin as [->|Hin].
      - rewrite comparator_refl. lia.
      - by apply (proj1 (Forall_forall _ _) Hy). }
    assert (comparefn x y <= 0)%Z as Hxy.
    { assert (y ∈ x :: l1) as Hin.
      { assert (y ∈ filter (λ z, comparefn z y = 0%Z) (x :: l1)) as Hf.
        { rewrite (Hclass y), filter_cons, decide_True
            by apply comparator_refl. by left. }
        by apply list_elem_of_filter in Hf as [_ ?]. }
      apply elem_of_cons in Hin as [->|Hin].
      - rewrite comparator_refl. lia.
      - by apply (proj1 (Forall_forall _ _) Hx). }
    assert (comparefn y x = 0%Z) as Hzero.
    { pose proof (comparator_flip _ consistent x y). lia. }
    assert (x = y) as <-.
    { pose proof (Hclass x) as Hhead.
      rewrite !filter_cons, !decide_True in Hhead
        by (done || apply comparator_refl).
      by injection Hhead. }
    f_equal. apply IH; [exact Hs2|].
    intros k. specialize (Hclass k). rewrite !filter_cons in Hclass.
    destruct (decide (comparefn x k = 0%Z)); [by injection Hclass | done].
Qed.

Lemma sort_characterisation l l' :
  StronglySorted notGreater l' →
  (∀ k, filter (λ x, comparefn x k = 0%Z) l'
        = filter (λ x, comparefn x k = 0%Z) l) →
  l' = sort comparefn l.
Proof.
  intros Hsorted Hstable.
  apply stable_sorted_unique; [exact Hsorted | apply sort_sorted|].
  intros k. by rewrite Hstable, sort_stable.
Qed.

End Sort.

Lemma groupBy_lookup {A} (iteratee : A → jsstring) (collection : list A)
    (key : jsstring) :
  default [] (groupBy iteratee collection !! key)
  = filter (λ value, iteratee value = key) collection.
Proof.
  unfold groupBy.
  enough (∀ result : gmap jsstring (list A),
            default [] (foldl (λ result value,
                                 let key := iteratee value in
                                 match result !! key with
                                 | Some group => <[key := group ++ [value]]> result
                                 | None => <[key := [value]]> result
                                 end) result collection !! key)
            = default [] (result !! key)
                ++ filter (λ value, iteratee value = key) collection) as Hgen.
  { rewrite Hgen, lookup_empty. reflexivity. }
  induction collection as [|value collection IH]; intros result; simpl.
  { by rewrite app_nil_r. }
  rewrite IH, filter_cons. clear IH.
  destruct (decide (iteratee value = key)) as [<-|Hne].
  - destruct (result !! iteratee value) as [group|] eqn:E;
      rewrite lookup_insert_eq; simpl; by rewrite <- ?app_assoc.
  - destruct (result !! iteratee value) as [group|] eqn:E;
      by rewrite lookup_insert_ne.
Qed.

(** A key without a group is one no element maps to: groups are never
    empty. *)
Lemma groupBy_lookup_None {A} (iteratee : A → jsstring) (collection : list A)
    (key : jsstring) :
  groupBy iteratee collection !! key = None
  ↔ filter (λ value, iteratee value = key) collection = [].
Proof.
  rewrite <- groupBy_lookup. unfold groupBy.
  enough (∀ result : gmap jsstring (list A),
            (∀ k group, result !! k = Some group → group ≠ []) →
            ∀ k group,
              foldl (λ result value,
                       let key := iteratee value in
                       match result !! key with
                       | Some group => <[key := group ++ [value]]> result
                       | None => <[key := [value]]> result
                       end) result collection !! k = Some group →
              group ≠ []) as Hgen.
  { specialize (Hgen ∅). split; [by intros ->|].
    destruct (foldl _ _ _ !! key) as [group|] eqn:E; [|done].
    simpl. intros ->. exfalso. eapply Hgen; [|exact E|reflexivity].
    intros k group. by rewrite lookup_empty. }
  induction collection as [|value collection IH]; intros result Hres; simpl;
    [exact Hres|].
  apply IH. intros k group.
  destruct (result !! iteratee value) as [g|] eqn:E;
    (destruct (decide (iteratee value = k)) as [<-|Hne];
     [rewrite lookup_insert_eq; intros [= <-]
     |rewrite lookup_insert_ne by done; apply Hres]).
  - by destruct g.
  - done.
Qed.

Lemma lookupOrEmpty_groupBy (collection : list RouteReference)
    (key : jsstring) :
  lookupOrEmpty (groupBy receiver collection) key
  = let references := filter (λ reference, receiver reference = key) collection in
    if decide (references = [] ∧ key ∈ OBJECT_PROTOTYPE_KEYS)
    then InheritedMember key else PolicyList references.
Proof.
  pose proof (groupBy_lookup receiver collection key) as Hlookup.
  pose proof (groupBy_lookup_None receiver collection key) as Hnone.
  unfold lookupOrEmpty. cbv zeta.
  destruct (groupBy receiver collection !! key) as [group|]; simpl in Hlookup.
  - rewrite <- Hlookup. rewrite decide_False; [reflexivity|].
    intros [Hnil _]. rewrite <- Hlookup in Hnone.
    apply Hnone in Hnil. discriminate.
  - rewrite <- Hlookup.
    destruct (decide (key ∈ OBJECT_PROTOTYPE_KEYS)) as [Hkey|Hkey].
    + rewrite bool_decide_eq_true_2 by done. by rewrite decide_True.
    + rewrite bool_decide_eq_false_2 by done. rewrite decide_False; [done|].
      by intros [_ ?].
Qed.

(** ** Enrichment of contact points *)

Lemma filter_map_comm {A B} (f : A → B) (P : B → Prop) `{∀ y, Decision (P y)}
    (l : list A) :
  filter P (map f l) = map f (filter (λ x, P (f x)) l).
Proof.
  induction l as [|x l IH]; [reflexivity|].
  simpl map. rewrite !filter_cons, IH. by destruct (decide (P (f x))).
Qed.

Section Enrichment.

Variable alertingSimplifiedRouting : option bool.
Variable OnCall : jsstring.
Variable computeInheritedTree : Route → Route.
Variable extractReceivers : Receiver → list GrafanaManagedReceiverConfig.
Variable getOnCallMetadata :
  option (list OnCallIntegrationDTO) → GrafanaManagedReceiverConfig → bool →
  ReceiverPluginMetadata.
Variable upperFirst : jsstring → jsstring.
Variable localeCompare : jsstring → jsstring → Z.

Local Abbreviation enhance :=
  (enhanceContactPointsWithMetadata alertingSimplifiedRouting OnCall
     computeInheritedTree extractReceivers getOnCallMetadata upperFirst
     localeCompare).

(** The references collected from the inherited tree of the configured
    route, or of the empty route when none is configured. *)
Local Abbreviation usedContactPoints configuration :=
  (getUsedContactPoints alertingSimplifiedRouting
     (computeInheritedTree
        (default emptyRoute ((configuration ≫= alertmanager_config) ≫= route)))).

(** The enrichment of a single contact point within a call. *)
Local Abbreviation enhanceOne args :=
  (enhanceContactPoint OnCall extractReceivers getOnCallMetadata upperFirst
     (default [] (status args)) (default [] (notifiers args))
     (onCallIntegrations args) (alertmanagerConfiguration args)
     (groupBy receiver (usedContactPoints (alertmanagerConfiguration args)))).

Local Abbreviation byName :=
  (λ a b, localeCompare (cp_name a) (cp_name b)).

Lemma enhance_unfold args :
  enhance args = sort byName (map (enhanceOne args) (contactPoints args)).
Proof. reflexivity. Qed.

Lemma enhance_Permutation args :
  enhance args ≡ₚ map (enhanceOne args) (contactPoints args).
Proof. rewrite enhance_unfold. apply sort_Permutation. Qed.

Lemma imap_config
    (f : nat → GrafanaManagedReceiverConfig → ReceiverConfigWithMetadata)
    (receivers : list GrafanaManagedReceiverConfig) :
  (∀ index receiver, config (f index receiver) = receiver) →
  map config (imap f receivers) = receivers.
Proof.
  revert f. induction receivers as [|receiver receivers IH]; intros f Hf;
    [reflexivity|].
  simpl. rewrite Hf. f_equal. apply IH. intros index r. apply Hf.
Qed.

(** The [policies] of every enriched contact point: absent without a
    configuration; with one, the collected references whose receiver is the
    contact point's name, in collector order, unless there is none and the
    name is that of a member of [Object.prototype], which is then what the
    lookup finds. *)
Lemma policies_lookup (args : EnhanceContactPointsArgs) :
  Forall (λ contactPoint,
            policies contactPoint =
            match alertmanagerConfiguration args with
            | None => None
            | Some configuration =>
                let references :=
                  filter (λ reference,
                            receiver reference = cp_name contactPoint)
                    (usedContactPoints (Some configuration)) in
                Some (if decide (references = []
                                 ∧ cp_name contactPoint ∈ OBJECT_PROTOTYPE_KEYS)
                      then InheritedMember (cp_name contactPoint)
                      else PolicyList references)
            end)
         (enhance args).
Proof.
  rewrite enhance_Permutation. apply Forall_map, Forall_forall.
  intros contactPoint _. unfold enhanceContactPoint. simpl.
  destruct (alertmanagerConfiguration args) as [configuration|];
    [|reflexivity].
  by rewrite lookupOrEmpty_groupBy.
Qed.

(** C5: the result has as many entries as there are contact points in the
    input, whichever optional arguments are given. *)
Theorem enhance_length (args : EnhanceContactPointsArgs) :
  length (enhance args) = length (contactPoints args).
Proof. by rewrite enhance_unfold, length_sort, length_map. Qed.

(** C10: the result is, up to order, the input with each contact point
    enriched on its own; an enriched contact point keeps the name and every
    other property of its original, and its receiver configs are, in
    order, those of the original with only the metadata added. *)
Theorem enhance_frame (args : EnhanceContactPointsArgs) :
  ∃ enrich : Receiver → ContactPointWithMetadata,
    enhance args ≡ₚ map enrich (contactPoints args)
    ∧ ∀ contactPoint,
        cp_name (enrich contactPoint) = name contactPoint
        ∧ cp_other (enrich contactPoint) = receiver_other contactPoint
        ∧ map config (cp_receiver_configs (enrich contactPoint))
          = extractReceivers contactPoint.
Proof.
  exists (enhanceOne args). split; [apply enhance_Permutation|].
  intros contactPoint. split; [reflexivity|]. split; [reflexivity|].
  unfold enhanceContactPoint. simpl. by apply imap_config.
Qed.

(** C6: for a consistent locale comparison the result is sorted by name in
    ascending order, and the sort is stable: the entries of any one name are
    the enrichments of the input contact points of that name, each by the
    callback of the call, in input order; the same holds of the entries
    whose names compare equal to a given one. *)
Theorem enhance_sorted_stable (args : EnhanceContactPointsArgs) :
  ConsistentComparator localeCompare →
  StronglySorted (λ a b, (localeCompare (cp_name a) (cp_name b) <= 0)%Z)
    (enhance args)
  ∧ (∀ n, filter (λ contactPoint, cp_name contactPoint = n) (enhance args)
          = map (enhanceOne args)
              (filter (λ contactPoint, name contactPoint = n)
                 (contactPoints args)))
  ∧ (∀ k, filter (λ contactPoint,
                    localeCompare (cp_name contactPoint) k = 0%Z)
            (enhance args)
          = map (enhanceOne args)
              (filter (λ contactPoint,
                         localeCompare (name contactPoint) k = 0%Z)
                 (contactPoints args))).
Proof.
  intros consistent.
  assert (ConsistentComparator byName) as Hby.
  { split; intros; [apply (comparator_flip _ consistent)
                   | by eapply (comparator_trans _ consistent)]. }
  split; [|split].
  - rewrite enhance_unfold. by apply (sort_sorted byName).
  - intros n. rewrite enhance_unfold, sort_filter.
    + rewrite filter_map_comm. reflexivity.
    + intros a b Ha Hb. rewrite Ha, Hb.
      pose proof (comparator_refl _ consistent n). lia.
  - intros k. rewrite enhance_unfold, sort_filter.
    + rewrite filter_map_comm. reflexivity.
    + intros a b Ha Hb. simpl in *.
      pose proof (comparator_flip _ consistent (cp_name b) k) as Hflip.
      apply (comparator_trans _ consistent (cp_name a) k (cp_name b)); lia.
Qed.

End Enrichment.

(** ** The properties at concrete inputs *)

Lemma caseInsensitiveCompare_consistent :
  ConsistentComparator Demo.caseInsensitiveCompare.
Proof.
  split.
  - intros a. induction a as [|x a IH]; intros [|y b]; simpl; try reflexivity.
    rewrite (N.compare_antisym (Demo.foldCase x) (Demo.foldCase y)).
    destruct (N.compare (Demo.foldCase x) (Demo.foldCase y)); simpl;
      [apply IH | reflexivity | reflexivity].
  - intros a. induction a as [|x a IH]; intros [|y b] [|z c]; simpl; try lia.
    destruct (N.compare_spec (Demo.foldCase x) (Demo.foldCase y)),
             (N.compare_spec (Demo.foldCase y) (Demo.foldCase z)),
             (N.compare_spec (Demo.foldCase x) (Demo.foldCase z));
      try lia; apply IH.
Qed.

Lemma getUsedContactPoints_spec_witness :
  Forall (λ node, hasReceiver node = false) (preorder Demo.bareTree)
  ∧ getUsedContactPoints (Some true) Demo.bareTree = [].
Proof.
  assert (Forall (λ node, hasReceiver node = false) (preorder Demo.bareTree))
    as Hbare by (repeat constructor).
  split; [exact Hbare|].
  exact (proj2 (proj2 (getUsedContactPoints_spec (Some true) Demo.bareTree)) Hbare).
Defined.

Example getUsedContactPoints_preorder_example :
  map receiver (getUsedContactPoints None Demo.smallTree)
  = [js "R"; js "C1"; js "C2"].
Proof. reflexivity. Qed.

Example getUsedContactPoints_no_deduplication :
  getUsedContactPoints (Some true) Demo.policyTree
  = [ mkRouteReference (js "ops") normal
    ; mkRouteReference (js "dev") auto_generated
    ; mkRouteReference (js "ops") normal
    ; mkRouteReference (js "web") normal ].
Proof. reflexivity. Qed.

Lemma isAutoGeneratedPolicy_spec_witness :
  let node :=
    mkRoute (Some (js "dev"))
      (Some [(AUTOGENERATED_RECEIVER_POLICY_MATCHER_KEY, equal, js "dev")])
      None in
  (None : option bool) ≠ Some true
  ∧ isAutoGeneratedPolicy None node = false
  ∧ isAutoGeneratedPolicy (Some true) node = true.
Proof.
  intros node.
  assert ((None : option bool) ≠ Some true) as Hoff by discriminate.
  split; [exact Hoff|]. split.
  - exact (proj2 (isAutoGeneratedPolicy_spec None node) Hoff).
  - apply (proj1 (isAutoGeneratedPolicy_spec (Some true) node)).
    split; [reflexivity|]. eexists. split; [reflexivity|].
    eexists _, _, _. split; [apply list_elem_of_here|]. split; reflexivity.
Defined.


(** The literal reading of the slack rule fails on an empty recipient: the
    field is present, so that reading asks for "#", while the code finds no
    usable recipient and gives no description. *)
Lemma slack_empty_recipient_counterexample :
  let receiver := Demo.slackReceiver [("recipient", "")]%string in
  let fields : gmap jsstring jsstring := {[ js "recipient" := [] ]} in
  type (config receiver) = js "slack"
  ∧ settings (config receiver) = Some fields
  ∧ slackDescriptionAsStated fields = Some (js "#")
  ∧ getReceiverDescription Demo.OnCall receiver = None
  ∧ getReceiverDescription Demo.OnCall receiver
    ≠ slackDescriptionAsStated fields.
Proof.
  repeat split; try (vm_compute; reflexivity).
  vm_compute. discriminate.
Qed.

(** An empty recipient also gives way to the channel field. *)
Example slack_empty_recipient_falls_back :
  getReceiverDescription Demo.OnCall
    (Demo.slackReceiver [("recipient", ""); ("channel", "general")]%string)
  = Some (js "#general").
Proof. vm_compute. reflexivity. Qed.

Lemma slack_description_witness :
  getReceiverDescription Demo.OnCall
    (Demo.slackReceiver [("recipient", "#general")]%string)
  = Some (js "#general")
  ∧ getReceiverDescription Demo.OnCall
      (Demo.slackReceiver [("channel", "general")]%string)
    = Some (js "#general").
Proof.
  split.
  - refine (proj1 (proj2 (slack_description Demo.OnCall
                            (Demo.slackReceiver [("recipient", "#general")]%string)
                            {[ js "recipient" := js "#general" ]} _ _)) _);
      vm_compute; reflexivity.
  - rewrite (proj1 (slack_description Demo.OnCall
                      (Demo.slackReceiver [("channel", "general")]%string)
                      {[ js "channel" := js "general" ]}
                      ltac:(vm_compute; reflexivity)
                      ltac:(vm_compute; reflexivity))).
    vm_compute. reflexivity.
Defined.

Lemma no_description_is_absent_witness :
  let kafka :=
    mkReceiverConfigWithMetadata (mkReceiverConfig (js "kafka") (Some ∅) ∅)
      None (mkNotifierMetadata (js "Kafka") (Some (js "Kafka REST proxy")))
      None in
  descriptionSource Demo.OnCall kafka = None
  ∧ getReceiverDescription Demo.OnCall kafka = None
  ∧ getReceiverDescription Demo.OnCall kafka ≠ Some [].
Proof.
  intros kafka.
  assert (descriptionSource Demo.OnCall kafka = None) as Hsrc
    by (vm_compute; reflexivity).
  split; [exact Hsrc|].
  exact (no_description_is_absent Demo.OnCall kafka Hsrc).
Defined.

Lemma no_settings_no_description_witness :
  getReceiverDescription Demo.OnCall (Demo.withoutSettings Demo.OnCall) = None
  ∧ getReceiverDescription Demo.OnCall (Demo.withoutSettings (js "pagerduty"))
    = None.
Proof.
  split.
  - exact (no_settings_no_description Demo.OnCall
             (mkReceiverConfig Demo.OnCall None ∅) _ _ _ eq_refl).
  - exact (no_settings_no_description Demo.OnCall
             (mkReceiverConfig (js "pagerduty") None ∅) _ _ _ eq_refl).
Defined.

Example enhance_sorted_example :
  map cp_name
    (Demo.enhance None (Demo.withoutConfiguration ["Zeta"; "alpha"; "Beta"]%string))
  = [js "alpha"; js "Beta"; js "Zeta"].
Proof. vm_compute. reflexivity. Qed.

Lemma enhance_sorted_stable_witness :
  StronglySorted
    (λ a b, (Demo.caseInsensitiveCompare (cp_name a) (cp_name b) <= 0)%Z)
    (Demo.enhance None
       (Demo.withoutConfiguration ["Zeta"; "alpha"; "Beta"; "alpha"]%string))
  ∧ map cp_id
      (filter (λ contactPoint, cp_name contactPoint = js "b")
         (Demo.enhance None Samples.twoOfOneName))
    = [js "second"; js "first"].
Proof.
  split.
  - exact (proj1 (enhance_sorted_stable None Demo.OnCall (λ route, route)
                    Demo.extractReceivers Demo.getOnCallMetadata (λ s, s)
                    Demo.caseInsensitiveCompare
                    (Demo.withoutConfiguration
                       ["Zeta"; "alpha"; "Beta"; "alpha"]%string)
                    caseInsensitiveCompare_consistent)).
  - unfold Demo.enhance.
    rewrite (proj1 (proj2 (enhance_sorted_stable None Demo.OnCall
                             (λ route, route) Demo.extractReceivers
                             Demo.getOnCallMetadata (λ s, s)
                             Demo.caseInsensitiveCompare Samples.twoOfOneName
                             caseInsensitiveCompare_consistent))
               (js "b")).
    vm_compute. reflexivity.
Defined.

Example policies_absent_without_configuration :
  map policies
    (Demo.enhance (Some true) (Demo.withoutConfiguration ["ops"; "dev"]%string))
  = [None; None].
Proof. vm_compute. reflexivity. Qed.

Example policies_with_configuration :
  map (λ contactPoint, (cp_name contactPoint, policies contactPoint))
    (Demo.enhance (Some true)
       (Demo.withConfiguration ["Zeta"; "ops"; "dev"]%string Demo.policyTree))
  = [ (js "dev", Some (PolicyList [mkRouteReference (js "dev") auto_generated]))
    ; (js "ops", Some (PolicyList [ mkRouteReference (js "ops") normal
                                  ; mkRouteReference (js "ops") normal ]))
    ; (js "Zeta", Some (PolicyList [])) ].
Proof. vm_compute. reflexivity. Qed.

(** C2: with a configuration supplied, a contact point that no node
    references and whose name is that of a member of [Object.prototype] gets
    that inherited member as its [policies], not the empty list that the
    [?? []] fallback is there to give and that [RouteReference[]] promises;
    another contact point of the same call gets its list of references. *)
Theorem policies_inherited_member :
  let result :=
    Demo.enhance (Some true)
      (Demo.withConfiguration ["constructor"; "ops"]%string Demo.policyTree) in
  (js "constructor"
     ∉ map receiver (getUsedContactPoints (Some true) Demo.policyTree))
  ∧ map (λ contactPoint, (cp_name contactPoint, policies contactPoint)) result
    = [ (js "constructor", Some (InheritedMember (js "constructor")))
      ; (js "ops", Some (PolicyList [ mkRouteReference (js "ops") normal
                                    ; mkRouteReference (js "ops") normal ])) ]
  ∧ Exists (λ contactPoint, policies contactPoint ≠ Some (PolicyList []))
      (filter (λ contactPoint, cp_name contactPoint = js "constructor") result).
Proof.
  split; [|split].
  - apply (bool_decide_unpack _). vm_compute. exact I.
  - vm_compute. reflexivity.
  - vm_compute. constructor. discriminate.
Qed.

(** A referenced contact point of such a name gets its list: the own property
    of the grouping object comes first. *)
Example policies_own_group_first :
  map policies
    (Demo.enhance None
       (Demo.withConfiguration ["toString"]%string (Demo.leaf "toString")))
  = [Some (PolicyList [mkRouteReference (js "toString") normal])].
Proof. vm_compute. reflexivity. Qed.

(** Two contact points of one name stay in input order. *)
Example enhance_stable_example :
  map (λ contactPoint, (cp_name contactPoint, cp_id contactPoint))
    (Demo.enhance None Samples.twoOfOneName)
  = [(js "a", js "a"); (js "b", js "second"); (js "b", js "first")].
Proof. vm_compute. reflexivity. Qed.


(** * Further properties of the module *)

(** ** Parsing and summarising addresses *)

Lemma trimStart_noLeading s : noLeadingWhitespace (trimStart s).
Proof.
  induction s as [|c s IH]; simpl; [done|].
  destruct (isWhitespace c) eqn:E; [exact IH | exact E].
Qed.

Lemma trimStart_fixed s : noLeadingWhitespace s → trimStart s = s.
Proof. destruct s as [|c s]; simpl; [done|]. by intros ->. Qed.

Lemma trimStart_whitespace s :
  Forall (λ c, isWhitespace c = true) s → trimStart s = [].
Proof. induction 1 as [|c s Hc _ IH]; simpl; [done|]. by rewrite Hc. Qed.

Lemma suffix_noTrailing s t :
  t `suffix_of` s → noTrailingWhitespace s → noTrailingWhitespace t.
Proof.
  intros [k ->]. unfold noTrailingWhitespace. rewrite rev_app_distr.
  by destruct (rev t).
Qed.

Lemma trim_trimmed s :
  noLeadingWhitespace (trim s) ∧ noTrailingWhitespace (trim s).
Proof.
  unfold trim. split; [apply trimStart_noLeading|].
  eapply suffix_noTrailing; [apply trimStart_suffix|].
  unfold noTrailingWhitespace, trimEnd. rewrite rev_involutive.
  apply trimStart_noLeading.
Qed.

Lemma trim_fixed s :
  noLeadingWhitespace s → noTrailingWhitespace s → trim s = s.
Proof.
  intros Hlead Htrail. unfold trim, trimEnd.
  rewrite (trimStart_fixed (rev s)) by exact Htrail.
  rewrite rev_involutive. by apply trimStart_fixed.
Qed.

Lemma trim_idempotent s : trim (trim s) = trim s.
Proof. destruct (trim_trimmed s). by apply trim_fixed. Qed.

Lemma trim_whitespace s :
  Forall (λ c, isWhitespace c = true) s → trim s = [].
Proof.
  intros Hs. unfold trim, trimEnd.
  rewrite (trimStart_whitespace (rev s)) by (by apply Forall_rev).
  reflexivity.
Qed.

Lemma splitLoop_no_separator afterLF piece s :
  Forall (λ c, ¬ isSeparator c) s →
  splitLoop afterLF piece s = [piece ++ s].
Proof.
  intros Hs. revert afterLF piece.
  induction Hs as [|c s Hc _ IH]; intros afterLF piece; simpl.
  { by rewrite app_nil_r. }
  unfold isSeparator in Hc.
  destruct (N.eqb_spec c LINE_FEED) as [->|_]; [tauto|].
  destruct (N.eqb_spec c COMMA) as [->|_]; [tauto|].
  destruct (N.eqb_spec c SEMICOLON) as [->|_]; [tauto|]. simpl.
  by rewrite IH, <- app_assoc.
Qed.

Lemma join_cons sep x l :
  l ≠ [] → join sep (x :: l) = x ++ sep ++ join sep l.
Proof. by destruct l. Qed.

Lemma join_splitLoop_comma piece s :
  Forall (λ c, c ≠ SEMICOLON ∧ c ≠ LINE_FEED) s →
  join [COMMA] (splitLoop false piece s) = piece ++ s.
Proof.
  intros Hs. revert piece.
  induction Hs as [|c s [Hsemi Hlf] _ IH]; intros piece; cbn [splitLoop].
  { simpl. by rewrite app_nil_r. }
  destruct (N.eqb_spec c LINE_FEED) as [->|_]; [done|].
  destruct (N.eqb_spec c COMMA) as [->|_]; cbn [orb].
  - rewrite join_cons by apply splitLoop_not_nil. by rewrite IH.
  - destruct (N.eqb_spec c SEMICOLON) as [->|_]; [done|].
    by rewrite IH, <- app_assoc.
Qed.

(** X1: parsing always yields at least one address, and every parsed address
    is free of separators and neither begins nor ends with whitespace. *)
Theorem parseAddresses_trimmed (addresses : jsstring) :
  parseAddresses addresses ≠ []
  ∧ Forall (λ email, Forall (λ c, ¬ isSeparator c) email
                     ∧ noLeadingWhitespace email
                     ∧ noTrailingWhitespace email)
      (parseAddresses addresses).
Proof.
  split; [apply parseAddresses_pieces|].
  unfold parseAddresses, splitSeparators. apply Forall_map.
  eapply Forall_impl; [apply splitLoop_pieces; constructor|].
  intros piece Hpiece. simpl.
  split; [by apply trim_Forall | apply trim_trimmed].
Qed.

(** X2: an input without any separator is one address, and its summary is
    the input with the surrounding whitespace removed. *)
Theorem summarizeEmailAddresses_single (addresses : jsstring) :
  Forall (λ c, ¬ isSeparator c) addresses →
  parseAddresses addresses = [trim addresses]
  ∧ summarizeEmailAddresses addresses = trim addresses.
Proof.
  intros Hsep.
  assert (parseAddresses addresses = [trim addresses]) as Hparse.
  { unfold parseAddresses, splitSeparators.
    rewrite splitLoop_no_separator by (by apply trim_Forall).
    simpl. by rewrite trim_idempotent. }
  split; [exact Hparse|].
  unfold summarizeEmailAddresses. rewrite Hparse.
  change (take MAX_ADDRESSES_SHOWN [trim addresses]) with [trim addresses].
  rewrite difference_subsumed by done. reflexivity.
Qed.

(** X3: an input made of whitespace only (the empty input included) is
    summarised as the empty string. *)
Theorem summarizeEmailAddresses_blank (addresses : jsstring) :
  Forall (λ c, isWhitespace c = true) addresses →
  summarizeEmailAddresses addresses = [].
Proof.
  intros Hblank. unfold summarizeEmailAddresses, parseAddresses.
  rewrite (trim_whitespace addresses Hblank). reflexivity.
Qed.

(** X4: the count in "+N more" never exceeds the number of addresses past the
    third, and is that number when the addresses are pairwise distinct. *)
Theorem remainingCount_bound (addresses : jsstring) :
  let emails := parseAddresses addresses in
  let n := remainingCount emails (take 3 emails) in
  (n <= length emails - 3)%nat
  ∧ (NoDup emails → n = (length emails - 3)%nat).
Proof.
  intros emails n. split; [|apply remainingCount_NoDup].
  subst n. unfold remainingCount.
  rewrite <- (take_drop 3 emails) at 1.
  rewrite filter_app, length_app.
  fold (difference (take 3 emails) (take 3 emails)).
  rewrite difference_subsumed by done. simpl.
  rewrite <- length_drop. apply length_filter.
Qed.

(** X5: on a string without semicolons and line feeds, splitting at the
    separators and joining the pieces with commas gives the string back. *)
Theorem join_splitSeparators (s : jsstring) :
  Forall (λ c, c ≠ SEMICOLON ∧ c ≠ LINE_FEED) s →
  join [COMMA] (splitSeparators s) = s.
Proof. intros Hs. unfold splitSeparators. by rewrite join_splitLoop_comma. Qed.

(** ** Descriptions of email and slack integrations *)

Section DescriptionFacts.

Variable OnCall : jsstring.

Local Abbreviation describe := (getReceiverDescription OnCall).

(** X6: an email integration is described by the summary of its [addresses]
    or, when that field is absent or empty, of its legacy [to] field; with
    neither present and non-empty there is no description.  A field that is
    non-empty but blank gives the empty string as description. *)
Theorem email_description (receiver : ReceiverConfigWithMetadata)
    (fields : gmap jsstring jsstring) :
  type (config receiver) = js "email" →
  settings (config receiver) = Some fields →
  describe receiver
  = summarizeEmailAddresses
      <$> firstNonEmpty (fields !! js "addresses") (fields !! js "to")
  ∧ ∀ addresses,
      firstNonEmpty (fields !! js "addresses") (fields !! js "to")
      = Some addresses →
      Forall (λ c, isWhitespace c = true) addresses →
      describe receiver = Some [].
Proof.
  intros Hty Hset.
  assert (describe receiver
          = summarizeEmailAddresses
              <$> firstNonEmpty (fields !! js "addresses") (fields !! js "to"))
    as Heq.
  { unfold getReceiverDescription. rewrite Hset, Hty.
    rewrite decide_True by reflexivity.
    rewrite <- js_or_firstNonEmpty.
    destruct (js_or _ _) as [[|c s]|]; reflexivity. }
  split; [exact Heq|].
  intros addresses Hsome Hblank. rewrite Heq, Hsome. simpl.
  unfold summarizeEmailAddresses, parseAddresses.
  by rewrite (trim_whitespace addresses Hblank).
Qed.

(** X7: a slack description begins with a hash, and it is a fixed point: a
    slack integration whose recipient is that description is described by
    it unchanged. *)
Theorem slack_description_normal_form
    (receiver : ReceiverConfigWithMetadata) (fields : gmap jsstring jsstring)
    (description : jsstring) :
  type (config receiver) = js "slack" →
  settings (config receiver) = Some fields →
  describe receiver = Some description →
  (∃ channelName, description = HASH :: channelName)
  ∧ ∀ receiver' fields',
      type (config receiver') = js "slack" →
      settings (config receiver') = Some fields' →
      fields' !! js "recipient" = Some description →
      describe receiver' = Some description.
Proof.
  intros Hty Hset Hdesc.
  rewrite (slack_description_eq OnCall _ _ Hty Hset) in Hdesc.
  destruct (firstNonEmpty _ _) as [recipient|]; [|discriminate].
  injection Hdesc as <-.
  split; [by eexists|].
  intros receiver' fields' Hty' Hset' Hrecipient.
  rewrite (slack_description_eq OnCall _ _ Hty' Hset'), Hrecipient.
  simpl. unfold HASH. simpl. reflexivity.
Qed.

End DescriptionFacts.

(** ** References collected from a policy tree *)

Lemma map_receiver_ownReference autoGenerated (l : list Route) :
  map receiver (omap (ownReference autoGenerated) l) = omap ownReceiver l.
Proof.
  induction l as [|node l IH]; [reflexivity|].
  rewrite !omap_cons_app, map_app, IH. f_equal.
  unfold ownReference, ownReceiver.
  destruct (route_receiver node) as [r|]; [destruct (truthy r)|]; reflexivity.
Qed.

Lemma ownReceiver_Some node r :
  ownReceiver node = Some r ↔ route_receiver node = Some r ∧ r ≠ [].
Proof.
  unfold ownReceiver. destruct (route_receiver node) as [[|c s]|]; simpl;
    split; try (intros [? ?]); try intros ?; simplify_eq; done.
Qed.

(** X8: the receivers collected from a tree do not depend on the feature
    toggle, which only bears on the classification. *)
Theorem getUsedContactPoints_receivers_toggle (toggle toggle' : option bool)
    (route : Route) :
  map receiver (getUsedContactPoints toggle route)
  = map receiver (getUsedContactPoints toggle' route).
Proof.
  rewrite !getUsedContactPoints_preorder.
  by rewrite !map_receiver_ownReference.
Qed.

(** X9: a receiver is collected from a tree exactly when it is non-empty and
    some node of the tree names it. *)
Theorem getUsedContactPoints_receiver_elem (toggle : option bool)
    (route : Route) (r : jsstring) :
  r ∈ map receiver (getUsedContactPoints toggle route)
  ↔ r ≠ [] ∧ ∃ node, node ∈ preorder route ∧ route_receiver node = Some r.
Proof.
  rewrite getUsedContactPoints_preorder, map_receiver_ownReference.
  rewrite list_elem_of_omap. split.
  - intros (node & Hnode & Hown). apply ownReceiver_Some in Hown as [? ?].
    split; [done|]. by exists node.
  - intros (Hne & node & Hnode & Hrecv). exists node. split; [done|].
    by apply ownReceiver_Some.
Qed.

(** X10: every collected reference names a non-empty receiver. *)
Theorem getUsedContactPoints_receiver_nonempty (toggle : option bool)
    (route : Route) :
  Forall (λ reference, receiver reference ≠ [])
    (getUsedContactPoints toggle route).
Proof.
  rewrite getUsedContactPoints_preorder.
  apply Forall_forall. intros reference Hin.
  apply list_elem_of_omap in Hin as (node & _ & Hown).
  unfold ownReference in Hown.
  destruct (route_receiver node) as [[|c s]|]; simpl in Hown; [done| |done].
  by injection Hown as <-.
Qed.

Lemma isAutoGeneratedPolicy_off toggle node :
  toggle ≠ Some true → isAutoGeneratedPolicy toggle node = false.
Proof.
  intros Hoff. unfold isAutoGeneratedPolicy.
  destruct toggle as [[|]|]; simpl; congruence.
Qed.

(** X11: with the feature toggle off or unset, every collected reference is
    classified as normal. *)
Theorem getUsedContactPoints_toggle_off (toggle : option bool) (route : Route) :
  toggle ≠ Some true →
  Forall (λ reference, route_type reference = normal)
    (getUsedContactPoints toggle route).
Proof.
  intros Hoff. rewrite getUsedContactPoints_preorder.
  apply Forall_forall. intros reference Hin.
  apply list_elem_of_omap in Hin as (node & _ & Hown).
  unfold ownReference in Hown.
  rewrite (isAutoGeneratedPolicy_off toggle node Hoff) in Hown.
  destruct (route_receiver node) as [r|]; [destruct (truthy r)|];
    simplify_eq; reflexivity.
Qed.

(** X12: the references of any subtree appear as one contiguous block, in the
    same order, among the references of the whole tree. *)
Theorem getUsedContactPoints_subtree (toggle : option bool)
    (route node : Route) :
  node ∈ preorder route →
  ∃ before after,
    getUsedContactPoints toggle route
    = before ++ getUsedContactPoints toggle node ++ after.
Proof.
  induction route as [r matchers children IH] using Route_children_ind.
  rewrite preorder_unfold. intros Hin.
  apply elem_of_cons in Hin as [->|Hin].
  { exists [], []. by rewrite app_nil_r. }
  simpl routes in Hin. apply list_elem_of_In, in_flat_map in Hin
    as (child & Hchild & Hnode).
  apply list_elem_of_In in Hnode.
  pose proof (proj1 (Forall_forall _ _) IH child
                (proj2 (list_elem_of_In _ _) Hchild) Hnode)
    as (before & after & Hsub).
  apply in_split in Hchild as (l1 & l2 & Hsplit).
  rewrite getUsedContactPoints_unfold. simpl routes. rewrite Hsplit.
  rewrite flat_map_app. simpl flat_map. rewrite Hsub.
  exists (option_list (ownReference (isAutoGeneratedPolicy toggle)
                         (mkRoute r matchers children))
            ++ flat_map (getUsedContactPoints toggle) l1 ++ before),
         (after ++ flat_map (getUsedContactPoints toggle) l2).
  by rewrite <- !app_assoc.
Qed.

(** ** Grouping *)

(** X13: a group of [groupBy] is never empty and holds, in their original
    order, exactly the elements of its key; a key without group is the key
    of no element. *)
Theorem groupBy_spec {A} (iteratee : A → jsstring) (collection : list A)
    (key : jsstring) :
  match groupBy iteratee collection !! key with
  | Some group =>
      group ≠ [] ∧ group = filter (λ value, iteratee value = key) collection
  | None => Forall (λ value, iteratee value ≠ key) collection
  end.
Proof.
  pose proof (groupBy_lookup iteratee collection key) as Hlookup.
  pose proof (groupBy_lookup_None iteratee collection key) as Hnone.
  destruct (groupBy iteratee collection !! key) as [group|]; simpl in *.
  - split; [|exact Hlookup].
    intros ->. symmetry in Hlookup. by apply Hnone in Hlookup.
  - apply Forall_forall. intros value Hin Hkey.
    eapply (filter_nil_not_elem_of _ _ value); [by symmetry| |exact Hin].
    exact Hkey.
Qed.

(** ** Enrichment, continued *)

Lemma find_no_match {A} (P : A → bool) (l : list A) :
  Forall (λ x, P x = false) l → find P l = None.
Proof. induction 1 as [|x l Hx _ IH]; simpl; [done|]. by rewrite Hx. Qed.

Lemma find_first_match {A} (P : A → bool) (before after : list A) (x : A) :
  Forall (λ y, P y = false) before → P x = true →
  find P (before ++ x :: after) = Some x.
Proof.
  intros Hbefore Hx. induction Hbefore as [|y before Hy _ IH]; simpl.
  - by rewrite Hx.
  - by rewrite Hy.
Qed.

Lemma Forall_imap {A B} (P : B → Prop) (f : nat → A → B) (l : list A) :
  (∀ i x, P (f i x)) → Forall P (imap f l).
Proof.
  revert f. induction l as [|x l IH]; intros f Hf; simpl; constructor;
    [apply Hf | apply IH; intros i y; apply Hf].
Qed.

Lemma length_filter_ownReference autoGenerated (n : jsstring) (l : list Route) :
  n ≠ [] →
  length (filter (λ reference, receiver reference = n)
            (omap (ownReference autoGenerated) l))
  = length (filter (λ node, route_receiver node = Some n) l).
Proof.
  intros Hn. induction l as [|node l IH]; [reflexivity|].
  rewrite omap_cons_app, filter_app, length_app, IH, filter_cons.
  unfold ownReference.
  destruct (route_receiver node) as [[|c s]|];
    unfold option_list; cbn [truthy option_rect].
  - rewrite decide_False by congruence. reflexivity.
  - rewrite filter_cons, filter_nil. cbn [receiver].
    destruct (decide (c :: s = n)) as [->|Hne].
    + by rewrite decide_True.
    + by rewrite decide_False by congruence.
  - by rewrite decide_False.
Qed.

Section SortOrder.

Context {A : Type} (comparefn : A → A → Z).
Hypothesis consistent : ConsistentComparator comparefn.

(** When no two elements compare equal, sorting forgets the input order. *)
Lemma sort_Permutation_distinct l1 l2 :
  l1 ≡ₚ l2 →
  (∀ k, length (filter (λ x, comparefn x k = 0%Z) l1) ≤ 1)%nat →
  sort comparefn l1 = sort comparefn l2.
Proof.
  intros Hperm Hdistinct.
  apply (stable_sorted_unique comparefn consistent);
    [by apply sort_sorted | by apply sort_sorted |].
  intros k. rewrite !sort_stable by done.
  assert (filter (λ x, comparefn x k = 0%Z) l1
          ≡ₚ filter (λ x, comparefn x k = 0%Z) l2) as Hfilter
    by (by rewrite Hperm).
  specialize (Hdistinct k).
  destruct (filter (λ x, comparefn x k = 0%Z) l1) as [|a [|b l]].
  - symmetry. by apply Permutation_nil.
  - symmetry. by apply Permutation_length_1_inv.
  - simpl in Hdistinct. lia.
Qed.

End SortOrder.

(** X14: the notifier metadata of an integration carries the name and the
    description of the first catalog entry of its type; without such an
    entry, the name is the type with its first letter in upper case and the
    description is absent. *)
Theorem getNotifierMetadata_spec (upperFirst : jsstring → jsstring)
    (notifiers : list NotifierDTO) (receiver : GrafanaManagedReceiverConfig) :
  (Forall (λ notifier, notifier_type notifier ≠ type receiver) notifiers →
   getNotifierMetadata upperFirst notifiers receiver
   = {| meta_name := upperFirst (type receiver); meta_description := None |})
  ∧ (∀ before notifier after,
       notifiers = before ++ notifier :: after →
       Forall (λ earlier, notifier_type earlier ≠ type receiver) before →
       notifier_type notifier = type receiver →
       getNotifierMetadata upperFirst notifiers receiver
       = {| meta_name := notifier_name notifier;
            meta_description := notifier_description notifier |}).
Proof.
  unfold getNotifierMetadata. split.
  - intros Hnone. rewrite find_no_match; [reflexivity|].
    eapply Forall_impl; [exact Hnone|]. intros notifier Hne.
    by apply bool_decide_eq_false_2.
  - intros before notifier after -> Hbefore Htype.
    rewrite (find_first_match _ before after notifier); [reflexivity| |].
    + eapply Forall_impl; [exact Hbefore|]. intros earlier Hne.
      by apply bool_decide_eq_false_2.
    + by apply bool_decide_eq_true_2.
Qed.

Section EnrichmentFacts.

Variable alertingSimplifiedRouting : option bool.
Variable OnCall : jsstring.
Variable computeInheritedTree : Route → Route.
Variable extractReceivers : Receiver → list GrafanaManagedReceiverConfig.
Variable getOnCallMetadata :
  option (list OnCallIntegrationDTO) → GrafanaManagedReceiverConfig → bool →
  ReceiverPluginMetadata.
Variable upperFirst : jsstring → jsstring.
Variable localeCompare : jsstring → jsstring → Z.

Local Abbreviation enhance :=
  (enhanceContactPointsWithMetadata alertingSimplifiedRouting OnCall
     computeInheritedTree extractReceivers getOnCallMetadata upperFirst
     localeCompare).

Local Abbreviation inheritedTree configuration :=
  (computeInheritedTree
     (default emptyRoute ((configuration ≫= alertmanager_config) ≫= route))).

Local Abbreviation enhanceOne args :=
  (enhanceContactPoint OnCall extractReceivers getOnCallMetadata upperFirst
     (default [] (status args)) (default [] (notifiers args))
     (onCallIntegrations args) (alertmanagerConfiguration args)
     (groupBy receiver
        (getUsedContactPoints alertingSimplifiedRouting
           (inheritedTree (alertmanagerConfiguration args))))).

Lemma enhance_Forall (P : ContactPointWithMetadata → Prop) args :
  (∀ contactPoint, contactPoint ∈ contactPoints args →
                   P (enhanceOne args contactPoint)) →
  Forall P (enhance args).
Proof.
  intros HP.
  rewrite (enhance_Permutation alertingSimplifiedRouting OnCall
             computeInheritedTree extractReceivers getOnCallMetadata
             upperFirst localeCompare args).
  apply Forall_map, Forall_forall. exact HP.
Qed.

(** X15: with a configuration, the policies of a contact point whose name is
    non-empty and not that of a member of [Object.prototype] are a list with
    as many entries as there are nodes of the inherited tree whose receiver
    is that name. *)
Theorem policies_count (args : EnhanceContactPointsArgs)
    (configuration : AlertManagerCortexConfig) :
  alertmanagerConfiguration args = Some configuration →
  Forall (λ contactPoint,
            cp_name contactPoint ≠ [] →
            cp_name contactPoint ∉ OBJECT_PROTOTYPE_KEYS →
            ∃ references,
              policies contactPoint = Some (PolicyList references)
              ∧ length references
                = length
                    (filter (λ node,
                               route_receiver node
                               = Some (cp_name contactPoint))
                       (preorder (inheritedTree (Some configuration)))))
    (enhance args).
Proof.
  intros Hcfg. apply enhance_Forall. intros contactPoint _ Hname Hkey.
  unfold enhanceContactPoint. cbn [policies cp_name] in *.
  rewrite Hcfg, lookupOrEmpty_groupBy. cbv zeta.
  rewrite decide_False by (by intros [_ ?]).
  eexists. split; [reflexivity|].
  rewrite getUsedContactPoints_preorder.
  by apply length_filter_ownReference.
Qed.

(** X16: the id of an enriched contact point is non-empty whenever its name
    is, and it is the name when the input contact points carry no id. *)
Theorem enhance_id (args : EnhanceContactPointsArgs) :
  Forall (λ contactPoint, cp_name contactPoint ≠ [] → cp_id contactPoint ≠ [])
    (enhance args)
  ∧ (Forall (λ contactPoint, id contactPoint = None) (contactPoints args) →
     Forall (λ contactPoint, cp_id contactPoint = cp_name contactPoint)
       (enhance args)).
Proof.
  split.
  - apply enhance_Forall. intros contactPoint _.
    unfold enhanceContactPoint. cbn [cp_name cp_id].
    destruct (id contactPoint) as [[|c s]|]; simpl; done.
  - intros Hnone. apply enhance_Forall. intros contactPoint Hin.
    unfold enhanceContactPoint. cbn [cp_name cp_id].
    by rewrite (proj1 (Forall_forall _ _) Hnone contactPoint Hin).
Qed.


(** X18: the status of the integration at position [i] of a contact point is
    the entry at position [i] of the first status entry of that name, and is
    absent when that entry is shorter. *)
Theorem status_by_index (args : EnhanceContactPointsArgs)
    (before after : list ReceiversStateDTO) (entry : ReceiversStateDTO) :
  default [] (status args) = before ++ entry :: after →
  Forall (λ earlier, state_name earlier ≠ state_name entry) before →
  Forall (λ contactPoint,
            cp_name contactPoint = state_name entry →
            ∀ i integration,
              cp_receiver_configs contactPoint !! i = Some integration →
              RECEIVER_STATUS_KEY integration = integrations entry !! i)
    (enhance args).
Proof.
  intros Hstatus Hbefore. apply enhance_Forall. intros contactPoint _.
  unfold enhanceContactPoint. cbn [cp_name cp_receiver_configs].
  intros Hname i integration. rewrite Hstatus.
  rewrite (find_first_match _ before after entry).
  - rewrite list_lookup_imap.
    destruct (extractReceivers contactPoint !! i); simpl; [|done].
    by intros [= <-].
  - eapply Forall_impl; [exact Hbefore|]. intros earlier Hne.
    apply bool_decide_eq_false_2. congruence.
  - by apply bool_decide_eq_true_2.
Qed.

(** X19: plugin metadata is attached to the integrations of the OnCall type
    and to no other, and the resolver is told whether a configuration was
    supplied. *)
Theorem plugin_metadata_OnCall (args : EnhanceContactPointsArgs) :
  Forall (λ contactPoint,
            Forall (λ integration,
                      RECEIVER_PLUGIN_META_KEY integration
                      = if decide (type (config integration) = OnCall)
                        then Some (getOnCallMetadata (onCallIntegrations args)
                                     (config integration)
                                     (bool_decide
                                        (is_Some (alertmanagerConfiguration args))))
                        else None)
              (cp_receiver_configs contactPoint))
    (enhance args).
Proof.
  apply enhance_Forall. intros contactPoint _.
  unfold enhanceContactPoint. cbn [cp_receiver_configs].
  apply Forall_imap. intros i integration.
  cbn [RECEIVER_PLUGIN_META_KEY config].
  by destruct (decide (type integration = OnCall)) as [H|H];
    [rewrite bool_decide_eq_true_2 | rewrite bool_decide_eq_false_2].
Qed.

(** X20: an enriched integration with settings whose type is none of email,
    slack, kafka, webhook and OnCall is described by the catalog: its
    description is that of its notifier metadata, and there is none when
    the catalog is omitted. *)
Theorem enriched_description_generic (args : EnhanceContactPointsArgs) :
  Forall (λ contactPoint,
            Forall (λ integration,
                      is_Some (settings (config integration)) →
                      type (config integration)
                        ∉ [js "email"; js "slack"; js "kafka"; js "webhook";
                           OnCall] →
                      getReceiverDescription OnCall integration
                      = meta_description
                          (getNotifierMetadata upperFirst
                             (default [] (notifiers args)) (config integration))
                      ∧ (notifiers args = None →
                         getReceiverDescription OnCall integration = None))
              (cp_receiver_configs contactPoint))
    (enhance args).
Proof.
  apply enhance_Forall. intros contactPoint _.
  unfold enhanceContactPoint. cbn [cp_receiver_configs].
  apply Forall_imap. intros i integration. cbn [config].
  intros [fields Hfields] Htype.
  assert (getReceiverDescription OnCall
            {| config := integration;
               RECEIVER_STATUS_KEY :=
                 find (λ s, bool_decide (state_name s = name contactPoint))
                   (default [] (status args))
                 ≫= (λ s, integrations s !! i);
               RECEIVER_META_KEY :=
                 getNotifierMetadata upperFirst (default [] (notifiers args))
                   integration;
               RECEIVER_PLUGIN_META_KEY :=
                 if bool_decide (type integration = OnCall)
                 then Some (getOnCallMetadata (onCallIntegrations args)
                              integration
                              (bool_decide
                                 (is_Some (alertmanagerConfiguration args))))
                 else None |}
          = meta_description
              (getNotifierMetadata upperFirst (default [] (notifiers args))
                 integration)) as Heq.
  { unfold getReceiverDescription. cbn [config RECEIVER_META_KEY].
    rewrite Hfields.
    repeat (rewrite decide_False;
            [|intros Heq; apply Htype; rewrite Heq; set_solver]).
    reflexivity. }
  split; [exact Heq|].
  intros Hnone. rewrite Heq, Hnone. reflexivity.
Qed.

(** X21: an enriched integration of the OnCall type with settings is
    described by the plugin metadata resolved for it (the OnCall type tag
    being none of email, slack, kafka and webhook). *)
Theorem enriched_description_OnCall (args : EnhanceContactPointsArgs) :
  OnCall ∉ [js "email"; js "slack"; js "kafka"; js "webhook"] →
  Forall (λ contactPoint,
            Forall (λ integration,
                      is_Some (settings (config integration)) →
                      type (config integration) = OnCall →
                      getReceiverDescription OnCall integration
                      = plugin_description
                          (getOnCallMetadata (onCallIntegrations args)
                             (config integration)
                             (bool_decide
                                (is_Some (alertmanagerConfiguration args)))))
              (cp_receiver_configs contactPoint))
    (enhance args).
Proof.
  intros HOnCall. apply enhance_Forall. intros contactPoint _.
  unfold enhanceContactPoint. cbn [cp_receiver_configs].
  apply Forall_imap. intros i integration. cbn [config].
  intros [fields Hfields] Htype.
  unfold getReceiverDescription.
  cbn [config RECEIVER_PLUGIN_META_KEY]. rewrite Hfields, Htype.
  repeat (rewrite decide_False;
          [|intros Heq; apply HOnCall; rewrite Heq; set_solver]).
  rewrite decide_True by reflexivity.
  rewrite bool_decide_eq_true_2 by reflexivity. reflexivity.
Qed.

(** X22: when no two input contact points have names that compare equal, the
    result does not depend on the order of the input. *)
Theorem enhance_input_order
    (statusEntries : option (list ReceiversStateDTO))
    (catalog : option (list NotifierDTO))
    (onCall : option (list OnCallIntegrationDTO))
    (configuration : option AlertManagerCortexConfig)
    (input input' : list Receiver) :
  ConsistentComparator localeCompare →
  input' ≡ₚ input →
  (∀ k, length (filter (λ contactPoint,
                          localeCompare (name contactPoint) k = 0%Z)
                  input) ≤ 1)%nat →
  enhance (mkEnhanceContactPointsArgs statusEntries catalog onCall input'
             configuration)
  = enhance (mkEnhanceContactPointsArgs statusEntries catalog onCall input
               configuration).
Proof.
  intros consistent Hperm Hdistinct.
  rewrite !(enhance_unfold alertingSimplifiedRouting OnCall
              computeInheritedTree extractReceivers getOnCallMetadata
              upperFirst localeCompare).
  cbn [status notifiers onCallIntegrations contactPoints
       alertmanagerConfiguration].
  symmetry. apply sort_Permutation_distinct.
  - split; intros; [apply (comparator_flip _ consistent)
                   | by eapply (comparator_trans _ consistent)].
  - by apply Permutation_map.
  - intros k. rewrite filter_map_comm, length_map. apply Hdistinct.
Qed.

End EnrichmentFacts.

(** ** The further properties at concrete inputs *)

Ltac no_separators :=
  repeat (constructor; [intros [H|[H|H]]; discriminate H|]); constructor.

Lemma summarizeEmailAddresses_single_witness :
  Forall (λ c, ¬ isSeparator c) (js "  a@x.com ")
  ∧ summarizeEmailAddresses (js "  a@x.com ") = js "a@x.com".
Proof.
  assert (Forall (λ c, ¬ isSeparator c) (js "  a@x.com ")) as Hsep
    by (vm_compute; no_separators).
  split; [exact Hsep|].
  exact (proj2 (summarizeEmailAddresses_single (js "  a@x.com ") Hsep)).
Defined.

Lemma summarizeEmailAddresses_blank_witness :
  Forall (λ c, isWhitespace c = true) [32; 10; 9; 160]
  ∧ summarizeEmailAddresses [32; 10; 9; 160] = [].
Proof.
  assert (Forall (λ c, isWhitespace c = true) [32; 10; 9; 160]) as Hblank
    by (repeat constructor).
  split; [exact Hblank|].
  exact (summarizeEmailAddresses_blank _ Hblank).
Defined.

Lemma join_splitSeparators_witness :
  Forall (λ c, c ≠ SEMICOLON ∧ c ≠ LINE_FEED) (js "a@x.com,,b@x.com")
  ∧ join [COMMA] (splitSeparators (js "a@x.com,,b@x.com"))
    = js "a@x.com,,b@x.com".
Proof.
  assert (Forall (λ c, c ≠ SEMICOLON ∧ c ≠ LINE_FEED) (js "a@x.com,,b@x.com"))
    as Hs by (vm_compute; repeat (constructor; [split; discriminate|]);
              constructor).
  split; [exact Hs|].
  exact (join_splitSeparators _ Hs).
Defined.

Lemma remainingCount_bound_witness :
  NoDup (parseAddresses (js "a;b;c;d;e"))
  ∧ remainingCount (parseAddresses (js "a;b;c;d;e"))
      (take 3 (parseAddresses (js "a;b;c;d;e"))) = 2%nat.
Proof.
  assert (NoDup (parseAddresses (js "a;b;c;d;e"))) as Hnd
    by (apply (bool_decide_unpack _); vm_compute; exact I).
  split; [exact Hnd|].
  exact (proj2 (remainingCount_bound (js "a;b;c;d;e")) Hnd).
Defined.

Example summarizeEmailAddresses_newlines :
  summarizeEmailAddresses [97; 10; 10; 98; 44; 10; 99]
  = js "a, b, , +1 more".
Proof. vm_compute. reflexivity. Qed.

Lemma email_description_witness :
  getReceiverDescription Demo.OnCall
    (Samples.emailReceiver [("addresses", ""); ("to", "a@x.com;b@x.com")]%string)
  = Some (js "a@x.com, b@x.com")
  ∧ getReceiverDescription Demo.OnCall
      (Samples.emailReceiver [("addresses", "  ")]%string)
    = Some [].
Proof.
  split.
  - rewrite (proj1 (email_description Demo.OnCall
                      (Samples.emailReceiver
                         [("addresses", ""); ("to", "a@x.com;b@x.com")]%string)
                      (<[js "addresses" := []]>
                         {[ js "to" := js "a@x.com;b@x.com" ]})
                      ltac:(vm_compute; reflexivity)
                      ltac:(vm_compute; reflexivity))).
    vm_compute. reflexivity.
  - refine (proj2 (email_description Demo.OnCall
                     (Samples.emailReceiver [("addresses", "  ")]%string)
                     {[ js "addresses" := js "  " ]}
                     ltac:(vm_compute; reflexivity)
                     ltac:(vm_compute; reflexivity))
              (js "  ") _ _).
    + vm_compute. reflexivity.
    + vm_compute. repeat constructor.
Defined.

Lemma slack_description_normal_form_witness :
  getReceiverDescription Demo.OnCall
    (Demo.slackReceiver [("recipient", "#alerts")]%string)
  = Some (js "#alerts").
Proof.
  refine (proj2 (slack_description_normal_form Demo.OnCall
                   (Demo.slackReceiver [("channel", "alerts")]%string)
                   {[ js "channel" := js "alerts" ]} (js "#alerts")
                   ltac:(vm_compute; reflexivity)
                   ltac:(vm_compute; reflexivity)
                   ltac:(vm_compute; reflexivity))
            (Demo.slackReceiver [("recipient", "#alerts")]%string)
            {[ js "recipient" := js "#alerts" ]} _ _ _);
    vm_compute; reflexivity.
Defined.

Lemma getUsedContactPoints_toggle_off_witness :
  Some false ≠ Some true
  ∧ Forall (λ reference, route_type reference = normal)
      (getUsedContactPoints (Some false) Demo.policyTree).
Proof.
  assert (Some false ≠ Some true) as Hoff by discriminate.
  split; [exact Hoff|].
  exact (getUsedContactPoints_toggle_off (Some false) Demo.policyTree Hoff).
Defined.

Lemma getUsedContactPoints_subtree_witness :
  let node :=
    mkRoute (Some (js "dev"))
      (Some [(AUTOGENERATED_RECEIVER_POLICY_MATCHER_KEY, equal, js "dev")])
      (Some [Demo.leaf "ops"]) in
  node ∈ preorder Demo.policyTree
  ∧ ∃ before after,
      getUsedContactPoints (Some true) Demo.policyTree
      = before ++ getUsedContactPoints (Some true) node ++ after.
Proof.
  intros node.
  assert (node ∈ preorder Demo.policyTree) as Hin
    by (apply list_elem_of_In; simpl; auto).
  split; [exact Hin|].
  exact (getUsedContactPoints_subtree (Some true) Demo.policyTree node Hin).
Defined.

Lemma getNotifierMetadata_spec_witness :
  getNotifierMetadata (λ s, s) Samples.catalog Samples.pagerduty
  = {| meta_name := js "PagerDuty"; meta_description := Some (js "Pages") |}
  ∧ getNotifierMetadata (λ s, s) Samples.catalog Samples.onCall
    = {| meta_name := js "oncall"; meta_description := None |}.
Proof.
  split.
  - refine (proj2 (getNotifierMetadata_spec (λ s, s) Samples.catalog
                     Samples.pagerduty)
              [mkNotifierDTO (js "slack") (js "Slack")
                 (Some (js "Sends to Slack"))]
              (mkNotifierDTO (js "pagerduty") (js "PagerDuty")
                 (Some (js "Pages")))
              [mkNotifierDTO (js "pagerduty") (js "Shadowed") None]
              eq_refl _ eq_refl).
    repeat constructor. vm_compute. discriminate.
  - refine (proj1 (getNotifierMetadata_spec (λ s, s) Samples.catalog
                     Samples.onCall) _).
    repeat constructor; vm_compute; discriminate.
Defined.

Lemma policies_count_witness :
  Forall (λ contactPoint,
            cp_name contactPoint ≠ [] →
            cp_name contactPoint ∉ OBJECT_PROTOTYPE_KEYS →
            ∃ references,
              policies contactPoint = Some (PolicyList references)
              ∧ length references
                = length
                    (filter (λ node,
                               route_receiver node
                               = Some (cp_name contactPoint))
                       (preorder Demo.policyTree)))
    (Demo.enhance (Some true)
       (Demo.withConfiguration ["ops"; "unused"]%string Demo.policyTree)).
Proof.
  exact (policies_count (Some true) Demo.OnCall (λ route, route)
           Demo.extractReceivers Demo.getOnCallMetadata (λ s, s)
           Demo.caseInsensitiveCompare
           (Demo.withConfiguration ["ops"; "unused"]%string Demo.policyTree)
           _ eq_refl).
Defined.

Example policies_count_example :
  map policies
    (Demo.enhance (Some true)
       (Demo.withConfiguration ["ops"; "unused"]%string Demo.policyTree))
  = [ Some (PolicyList [ mkRouteReference (js "ops") normal
                       ; mkRouteReference (js "ops") normal ])
    ; Some (PolicyList []) ].
Proof. vm_compute. reflexivity. Qed.

Lemma enhance_id_witness :
  Forall (λ contactPoint, id contactPoint = None)
    (contactPoints (Demo.withoutConfiguration ["ops"; "dev"]%string))
  ∧ Forall (λ contactPoint, cp_id contactPoint = cp_name contactPoint)
      (Demo.enhance None (Demo.withoutConfiguration ["ops"; "dev"]%string)).
Proof.
  assert (Forall (λ contactPoint, id contactPoint = None)
            (contactPoints (Demo.withoutConfiguration ["ops"; "dev"]%string)))
    as Hnone by (repeat constructor).
  split; [exact Hnone|].
  exact (proj2 (enhance_id None Demo.OnCall (λ route, route)
                  Demo.extractReceivers Demo.getOnCallMetadata (λ s, s)
                  Demo.caseInsensitiveCompare
                  (Demo.withoutConfiguration ["ops"; "dev"]%string)) Hnone).
Defined.


Lemma status_by_index_witness :
  Forall (λ contactPoint,
            cp_name contactPoint = js "team" →
            ∀ i integration,
              cp_receiver_configs contactPoint !! i = Some integration →
              RECEIVER_STATUS_KEY integration
              = integrations Samples.teamStatus !! i)
    (Samples.enhance Samples.args).
Proof.
  exact (status_by_index None Demo.OnCall (λ route, route)
           Demo.extractReceivers Samples.getOnCallMetadata (λ s, s)
           Demo.caseInsensitiveCompare Samples.args [] [] Samples.teamStatus
           eq_refl ltac:(constructor)).
Defined.

(** The first integration gets the only status there is, the second none;
    only the second, of the OnCall type, gets plugin metadata. *)
Example enhance_team_example :
  map (λ contactPoint,
         map (λ integration,
                (RECEIVER_STATUS_KEY integration,
                 meta_name (RECEIVER_META_KEY integration),
                 getReceiverDescription Demo.OnCall integration))
           (cp_receiver_configs contactPoint))
    (Samples.enhance Samples.args)
  = [[ (Some (JString (js "ok")), js "PagerDuty", Some (js "Pages"))
     ; (None, js "oncall", Some (js "Grafana OnCall")) ]].
Proof. vm_compute. reflexivity. Qed.

Lemma enriched_description_OnCall_witness :
  (Demo.OnCall ∉ [js "email"; js "slack"; js "kafka"; js "webhook"])
  ∧ Forall (λ contactPoint,
              Forall (λ integration,
                        is_Some (settings (config integration)) →
                        type (config integration) = Demo.OnCall →
                        getReceiverDescription Demo.OnCall integration
                        = Some (js "Grafana OnCall"))
                (cp_receiver_configs contactPoint))
      (Samples.enhance Samples.args).
Proof.
  assert (Demo.OnCall ∉ [js "email"; js "slack"; js "kafka"; js "webhook"])
    as HOnCall by (apply (bool_decide_unpack _); vm_compute; exact I).
  split; [exact HOnCall|].
  exact (enriched_description_OnCall None Demo.OnCall (λ route, route)
           Demo.extractReceivers Samples.getOnCallMetadata (λ s, s)
           Demo.caseInsensitiveCompare Samples.args HOnCall).
Defined.

Lemma enhance_input_order_witness :
  Demo.enhance None (Demo.withoutConfiguration ["Beta"; "alpha"]%string)
  = Demo.enhance None (Demo.withoutConfiguration ["alpha"; "Beta"]%string).
Proof.
  refine (enhance_input_order None Demo.OnCall (λ route, route)
            Demo.extractReceivers Demo.getOnCallMetadata (λ s, s)
            Demo.caseInsensitiveCompare None None None None
            (map Demo.contactPoint ["alpha"; "Beta"]%string)
            (map Demo.contactPoint ["Beta"; "alpha"]%string)
            caseInsensitiveCompare_consistent _ _).
  - apply Permutation_swap.
  - intros k. simpl map. rewrite !filter_cons, filter_nil. cbv beta.
    set (a := name (Demo.contactPoint "alpha")).
    set (b := name (Demo.contactPoint "Beta")).
    destruct (decide (Demo.caseInsensitiveCompare a k = 0%Z)) as [Ha|_];
      destruct (decide (Demo.caseInsensitiveCompare b k = 0%Z)) as [Hb|_];
      simpl; try lia.
    exfalso.
    pose proof (comparator_flip _ caseInsensitiveCompare_consistent a k)
      as Hflip.
    pose proof (comparator_trans _ caseInsensitiveCompare_consistent b k a)
      as Htrans.
    assert (Demo.caseInsensitiveCompare b a = 1%Z) as Hba
      by (vm_compute; reflexivity).
    lia.
Defined.
